(** * Address geocoding system: normaliser, result cache, batch runner

    A shallow embedding of [services.py], [models.py], [viewmodel.py] and of
    the normaliser of [main_legacy.py], with the properties of the design
    document stated over it.

    Conventions of the embedding.
    - A Python [str] is the list of its Unicode code points ([Py.str]).
    - A Python [dict] is a [gmap]; iteration order plays no role in the
      modelled code.
    - Methods that mutate objects or touch the outside world are functions in
      the monad [M], which threads one [State] and carries Python exceptions
      ([Raise]); [try_except] is [try: ... except Exception: ...].  Only
      exceptions derived from [Exception] are modelled, the ones those handlers
      catch.
    - The outside world answers through an [Env]: the geocoder, the success of
      each file operation, the content of the input table, the rendering of
      floats.  Console output is not modelled.
    - The input table is the list of its rows, each with the cell it has in
      column 'Shipping Address', if it has one: reading the cell of a row of
      a table without that column raises [KeyError].
    - The cache in memory is a dict from [str] to pairs, as
      [CacheService._cache] is declared.  The cache file is absent,
      unreadable, or holds such a dict, which is what [save_cache] writes; a
      file that unpickles to an object of another kind is outside the
      model, and the statements about a run are about the other files.
    - A Python [float] is idealised as a rational ([Q]).  The code never
      computes with coordinates.  The two percentages of the statistics are
      exact quotients here: the rounding of the floats, and the
      [OverflowError] of a quotient of integers beyond the floats, are
      outside the model, so what is stated of the percentages is their
      guards, their bounds and their values at the ends of the range. *)

From Stdlib Require Import ZArith QArith Lia ZifyNat.
From stdpp Require Import base option list gmap strings.

Set Default Proof Using "Type".

(** ** Python values and string primitives *)

Module Py.

Definition char := N.
Definition str := list N.

(** A string literal as a [str] (all literals of the program are ASCII). *)
Definition lit (s : string) : str :=
  Ascii.N_of_ascii <$> String.list_ascii_of_string s.

(** The values a cell of the input table or an argument can hold.  The
    constructors other than [PyStr] stand for the non-string values:
    [PyNaN] is the float pandas puts in an empty cell. *)
Inductive pyval :=
| PyStr (s : str)
| PyNone
| PyInt (n : Z)
| PyNaN.

(** [isinstance(v, str)] *)
Definition isinstance_str (v : pyval) : bool :=
  match v with PyStr _ => true | _ => false end.

(** [c.isspace()]: the code points Python treats as whitespace. *)
Definition isspace (c : char) : bool :=
  ((9 <=? c) && (c <=? 13) || (28 <=? c) && (c <=? 32)
   || (c =? 133) || (c =? 160) || (c =? 5760)
   || (8192 <=? c) && (c <=? 8202)
   || (c =? 8232) || (c =? 8233) || (c =? 8239) || (c =? 8287)
   || (c =? 12288))%N.

(** [s.startswith(p)] *)
Fixpoint startswith (p s : str) : bool :=
  match p, s with
  | [], _ => true
  | _ :: _, [] => false
  | a :: p', b :: s' => (a =? b)%N && startswith p' s'
  end.

(** [m in s] for strings: [m] occurs in [s] as a contiguous run. *)
Fixpoint contains (m s : str) : bool :=
  startswith m s ||
  match s with
  | [] => false
  | _ :: s' => contains m s'
  end.

(** The scan of [s.replace(old, new)] for a non-empty [old]: left to right,
    every occurrence found is replaced and the scan resumes after it.
    [skip] counts the characters of the current occurrence still to be
    passed over. *)
Fixpoint replace_scan (old new : str) (skip : nat) (s : str) : str :=
  match s with
  | [] => []
  | c :: s' =>
      match skip with
      | S k => replace_scan old new k s'
      | O =>
          if startswith old s
          then new ++ replace_scan old new (length old - 1) s'
          else c :: replace_scan old new 0 s'
      end
  end.

(** [s.replace(old, new)]; with an empty [old], [new] goes before every
    character and at the end. *)
Definition replace (old new s : str) : str :=
  match old with
  | [] => new ++ concat ((λ c, c :: new) <$> s)
  | _ :: _ => replace_scan old new 0 s
  end.

(** [s.split(sep)] for a one-character separator, as the first piece and
    the list of the others (the result of [split] is never empty). *)
Fixpoint split (sep : char) (s : str) : str * list str :=
  match s with
  | [] => ([], [])
  | c :: s' =>
      let '(piece, pieces) := split sep s' in
      if (c =? sep)%N then ([], piece :: pieces) else (c :: piece, pieces)
  end.

Fixpoint lstrip_with (p : char → bool) (s : str) : str :=
  match s with
  | [] => []
  | c :: s' => if p c then lstrip_with p s' else s
  end.

Definition rstrip_with (p : char → bool) (s : str) : str :=
  reverse (lstrip_with p (reverse s)).

Definition strip_with (p : char → bool) (s : str) : str :=
  lstrip_with p (rstrip_with p s).

(** [s.strip()] *)
Definition strip (s : str) : str := strip_with isspace s.

(** [s.strip(chars)] *)
Definition strip_chars (chars s : str) : str :=
  strip_with (λ c, existsb (N.eqb c) chars) s.

(** Exceptions (all derived from [Exception]). *)
Inductive exn :=
| ZeroDivisionError
| OSError
| UnpicklingError
| GeocoderError
| KeyError.

(** The result of running a piece of code: a value or a raised exception. *)
Inductive res (A : Type) :=
| Ret (a : A)
| Raise (e : exn).
Arguments Ret {A} a.
Arguments Raise {A} e.

(** [a // b] on integers *)
Definition floordiv (a b : Z) : res Z :=
  if (b =? 0)%Z then Raise ZeroDivisionError else Ret (a / b)%Z.

(** [a / b] on integers, a float: the exact quotient (not rounded), with
    the error Python raises for a zero divisor. *)
Definition truediv (a b : Z) : res Q :=
  if (b =? 0)%Z then Raise ZeroDivisionError else Ret (inject_Z a / inject_Z b)%Q.

End Py.
Export Py.

(** ** models.py *)

Module models.

Definition coord := Q.

Record Address := mkAddress {
  original : str;
  cleaned : str;
  latitude : option coord;
  longitude : option coord;
}.

(** [Address.is_geocoded] *)
Definition is_geocoded (a : Address) : bool :=
  bool_decide (latitude a ≠ None) && bool_decide (longitude a ≠ None).

(** [Address.coordinates]; [float_str] renders a float as the f-string
    does. *)
Definition coordinates (float_str : coord → str) (a : Address) : option str :=
  if is_geocoded a then
    match latitude a, longitude a with
    | Some lat, Some lng => Some (float_str lat ++ lit "," ++ float_str lng)
    | _, _ => None
    end
  else None.

Record ProcessingStats := mkStats {
  total_addresses : Z;
  processed_addresses : Z;
  successful_geocodes : Z;
  failed_geocodes : Z;
  current_batch : Z;
  total_batches : Z;
}.

(** [ProcessingStats()] *)
Definition new_stats : ProcessingStats := mkStats 0 0 0 0 0 0.

(** [ProcessingStats.progress_percentage] *)
Definition progress_percentage (self : ProcessingStats) : res Q :=
  if (total_addresses self =? 0)%Z then Ret 0%Q
  else
    match truediv (processed_addresses self) (total_addresses self) with
    | Ret q => Ret (q * 100)%Q
    | Raise e => Raise e
    end.

(** [ProcessingStats.success_rate] *)
Definition success_rate (self : ProcessingStats) : res Q :=
  if (processed_addresses self =? 0)%Z then Ret 0%Q
  else
    match truediv (successful_geocodes self) (processed_addresses self) with
    | Ret q => Ret (q * 100)%Q
    | Raise e => Raise e
    end.

(** [GeocodingConfig], the field the modelled methods read. *)
Record GeocodingConfig := mkConfig {
  batch_size : Z;
}.

End models.
Export models.

(** ** The program state, the outside world and the monad *)

Module runtime.

(** A lookup outcome as the code keeps it: [(lat, lng)], or [(None, None)]
    for a failed lookup. *)
Definition outcome : Type := option coord * option coord.
Definition failed_result : outcome := (None, None).

(** The cache file on disk: absent, present but unreadable (truncated or
    not a pickle), or holding a pickled cache, a dict from [str] to pairs
    as [save_cache] writes it. *)
Inductive file_state :=
| FileAbsent
| FileCorrupt
| FileHolds (m : gmap str outcome).

(** What the program did to the outside world, oldest first. *)
Inductive event :=
| IoFailed
| ReadCache
| WroteCache (m : gmap str outcome)
| WroteCsv (rows : list Address)
| WroteJson (m : gmap str (option str))
| WrotePythonDict (m : gmap str (option str)) (total : Z) (rate : Q)
| Slept (seconds : Z).

Record State := mkState {
  s_cache : gmap str outcome;     (* CacheService._cache, the one object the
                                     view model and the geocoding service share *)
  s_addresses : list Address;     (* GeocodingViewModel.addresses *)
  s_stats : ProcessingStats;      (* GeocodingViewModel.stats *)
  s_cache_file : file_state;      (* the file at CacheService.cache_file *)
  s_ext_calls : list str;         (* addresses sent to the external geocoder *)
  s_events : list event;          (* file operations and pauses *)
}.

Definition set_cache (f : gmap str outcome → gmap str outcome) (st : State) : State :=
  mkState (f (s_cache st)) (s_addresses st) (s_stats st)
          (s_cache_file st) (s_ext_calls st) (s_events st).
Definition set_addresses (f : list Address → list Address) (st : State) : State :=
  mkState (s_cache st) (f (s_addresses st)) (s_stats st)
          (s_cache_file st) (s_ext_calls st) (s_events st).
Definition set_stats (f : ProcessingStats → ProcessingStats) (st : State) : State :=
  mkState (s_cache st) (s_addresses st) (f (s_stats st))
          (s_cache_file st) (s_ext_calls st) (s_events st).
Definition set_cache_file (x : file_state) (st : State) : State :=
  mkState (s_cache st) (s_addresses st) (s_stats st)
          x (s_ext_calls st) (s_events st).
Definition log_ext_call (a : str) (st : State) : State :=
  mkState (s_cache st) (s_addresses st) (s_stats st)
          (s_cache_file st) (s_ext_calls st ++ [a]) (s_events st).
Definition log_event (e : event) (st : State) : State :=
  mkState (s_cache st) (s_addresses st) (s_stats st)
          (s_cache_file st) (s_ext_calls st) (s_events st ++ [e]).

(** What one call of the external geocoder gives back. *)
Inductive ext_response :=
| Located (lat lng : coord)
| NoMatch
| Fails (e : exn).

(** How one file operation ends: well, with an error before the file is
    touched (it cannot be opened), or with an error after it was opened. *)
Inductive io_outcome :=
| IoOk
| IoFailsEarly
| IoFailsLate.

Record Env := mkEnv {
  geocoder : nat → str → ext_response;  (* the answer of [self.geocode] to an
                                           address, given the number of calls made before *)
  io : nat → io_outcome;                (* the fate of a file operation, given
                                           the number of events before it *)
  csv_cells : res (list (option pyval)); (* [FileService.load_csv(input_file)]: the
                                           rows of the table, each as the cell it has in
                                           column 'Shipping Address', [None] for a row
                                           of a table without that column *)
  float_str : coord → str;              (* a float in an f-string *)
}.

(** State and exceptions: the state changes made before a [Raise] stay. *)
Definition M (A : Type) : Type := State → State * res A.

Definition ret {A} (a : A) : M A := λ st, (st, Ret a).
Definition bind {A B} (m : M A) (k : A → M B) : M B :=
  λ st, match m st with
        | (st', Ret a) => k a st'
        | (st', Raise e) => (st', Raise e)
        end.
(** [try: body  except Exception as e: handler] *)
Definition try_except {A} (body : M A) (handler : exn → M A) : M A :=
  λ st, match body st with
        | (st', Ret a) => (st', Ret a)
        | (st', Raise e) => handler e st'
        end.
Definition lift {A} (r : res A) : M A := λ st, (st, r).
(** Reading a field of [self]. *)
Definition gets {A} (f : State → A) : M A := λ st, (st, Ret (f st)).
Definition modify (f : State → State) : M unit := λ st, (f st, Ret tt).

(** [for x in l: body x] *)
Fixpoint for_each {A} (l : list A) (body : A → M unit) : M unit :=
  match l with
  | [] => ret tt
  | x :: l' => bind (body x) (λ _, for_each l' body)
  end.

End runtime.
Export runtime.

Declare Scope pym_scope.
Delimit Scope pym_scope with pym.
Notation "x ← m ; k" := (runtime.bind m (λ x, k))
  (at level 20, m at level 100, k at level 200, only parsing) : pym_scope.
Notation "' x ← m ; k" := (runtime.bind m (λ x, k))
  (at level 20, x pattern, m at level 100, k at level 200, only parsing) : pym_scope.
Notation "m ;; k" := (runtime.bind m (λ _, k))
  (at level 100, k at level 200, right associativity, only parsing) : pym_scope.

(** ** services.py *)

Module services.

Definition marker_jumia : str := lit "Jumia- Pargo- Pickup station -".
Definition marker_point : str := lit "Point 192 -".
Definition comma : char := 44%N.

Section with_env.
Context (env : Env).
Local Open Scope pym_scope.

(** *** FileService.  The three output files are told apart by the event
    they leave; a failed operation raises [OSError]. *)

Definition write_file (e : event) : M unit := λ st,
  match io env (length (s_events st)) with
  | IoOk => (log_event e st, Ret tt)
  | IoFailsEarly | IoFailsLate => (log_event IoFailed st, Raise OSError)
  end.

(** [FileService.load_csv] *)
Definition load_csv : M (list (option pyval)) := lift (csv_cells env).

(** [FileService.save_csv] *)
Definition save_csv (rows : list Address) : M unit :=
  write_file (WroteCsv rows).

(** [FileService.save_json] *)
Definition save_json (data : gmap str (option str)) : M unit :=
  write_file (WroteJson data).

(** [FileService.save_python_dict]; the description line is kept as the
    two numbers it is made of. *)
Definition save_python_dict (data : gmap str (option str))
    (total : Z) (rate : Q) : M unit :=
  write_file (WrotePythonDict data total rate).

(** *** CacheService *)

(** [os.path.exists(self.cache_file)] *)
Definition os_path_exists : M bool :=
  file ← gets s_cache_file;
  ret (match file with FileAbsent => false | _ => true end).

(** [with open(self.cache_file, 'rb') as f: pickle.load(f)] *)
Definition pickle_load : M (gmap str outcome) := λ st,
  match io env (length (s_events st)), s_cache_file st with
  | IoOk, FileHolds m => (log_event ReadCache st, Ret m)
  | IoOk, FileCorrupt => (log_event IoFailed st, Raise UnpicklingError)
  | _, _ => (log_event IoFailed st, Raise OSError)
  end.

(** [with open(self.cache_file, 'wb') as f: pickle.dump(m, f)]: opening
    truncates the file, so a failure after it leaves an unreadable file. *)
Definition pickle_dump (m : gmap str outcome) : M unit := λ st,
  match io env (length (s_events st)) with
  | IoOk => (log_event (WroteCache m) (set_cache_file (FileHolds m) st), Ret tt)
  | IoFailsEarly => (log_event IoFailed st, Raise OSError)
  | IoFailsLate => (log_event IoFailed (set_cache_file FileCorrupt st), Raise OSError)
  end.

(** [CacheService.load_cache] *)
Definition load_cache : M (gmap str outcome) :=
  file_exists ← os_path_exists;
  (if file_exists then
     try_except
       (m ← pickle_load; modify (set_cache (λ _, m)))
       (λ e, modify (set_cache (λ _, ∅)))
   else modify (set_cache (λ _, ∅)));;
  gets s_cache.

(** [CacheService.save_cache] *)
Definition save_cache : M unit :=
  try_except
    (cache ← gets s_cache; pickle_dump cache)
    (λ e, ret tt).

(** [CacheService.get]: [None] when the key is absent. *)
Definition cache_get (key : str) : M (option outcome) :=
  cache ← gets s_cache;
  ret (cache !! key).

(** [CacheService.set] *)
Definition cache_set (key : str) (value : outcome) : M unit :=
  modify (set_cache (<[key := value]>)).

(** [CacheService.size] *)
Definition cache_size : M Z :=
  cache ← gets s_cache;
  ret (Z.of_nat (size cache)).

(** *** GeocodingService *)

(** [GeocodingService.clean_address] *)
Definition clean_address (address : pyval) : str :=
  match address with
  | PyStr a =>
      let cleaned := replace marker_jumia [] a in
      let cleaned := replace marker_point [] cleaned in
      let cleaned := strip (fst (split comma cleaned)) in
      cleaned
  | _ => []
  end.

(** [self.geocode(address)]: one call of the rate-limited external
    geocoder; [Some] is a location, [None] is no match. *)
Definition call_geocode (address : str) : M (option (coord * coord)) := λ st,
  let st' := log_ext_call address st in
  match geocoder env (length (s_ext_calls st)) address with
  | Located lat lng => (st', Ret (Some (lat, lng)))
  | NoMatch => (st', Ret None)
  | Fails e => (st', Raise e)
  end.

(** [GeocodingService.geocode_address].  The [try] block yields [Some r]
    when it returns [r] and [None] when control falls out of it. *)
Definition geocode_address (address : str) : M outcome :=
  cached_result ← cache_get address;
  match cached_result with
  | Some r => ret r
  | None =>
      returned ←
        try_except
          (location ← call_geocode address;
           match location with
           | Some (lat, lng) =>
               let result : outcome := (Some lat, Some lng) in
               cache_set address result;;
               ret (Some result)
           | None => ret None
           end)
          (λ e, ret None);
      match returned with
      | Some result => ret result
      | None =>
          cache_set address failed_result;;
          ret failed_result
      end
  end.

End with_env.

End services.

(** ** main_legacy.py, the normaliser *)

Module main_legacy.

(** [clean_address] of the legacy script: a value that is not a string is
    handed back as it came. *)
Definition clean_address (address : pyval) : pyval :=
  match address with
  | PyStr a =>
      let a := replace services.marker_jumia [] a in
      let a := replace services.marker_point [] a in
      let a := strip (fst (split services.comma a)) in
      PyStr a
  | _ => address
  end.

Section with_env.
Context (env : Env).
Local Open Scope pym_scope.

(** [load_cache] of the legacy script: the mapping read, or an empty one. *)
Definition load_cache : M (gmap str outcome) :=
  file_exists ← services.os_path_exists;
  if file_exists then
    try_except (services.pickle_load env) (λ e, ret ∅)
  else ret ∅.

(** [save_cache(cache)] of the legacy script: the write is not guarded. *)
Definition save_cache (cache : gmap str outcome) : M unit :=
  services.pickle_dump env cache.

(** [get_lat_long_cached(address, cache)] of the legacy script, for a string
    [address]; [cache] is the one dictionary the script keeps ([s_cache]).
    The [try] block yields [Some r] when it returns [r] and [None] when
    control leaves it otherwise. *)
Definition get_lat_long_cached (address : str) : M outcome :=
  cache ← gets s_cache;
  match cache !! address with
  | Some r => ret r
  | None =>
      returned ←
        try_except
          (location ← services.call_geocode env address;
           match location with
           | Some (lat, lng) =>
               let result : outcome := (Some lat, Some lng) in
               services.cache_set address result;;
               ret (Some result)
           | None => ret None
           end)
          (λ e, services.cache_set address (None, None);; ret None);
      match returned with
      | Some result => ret result
      | None => ret (None, None)
      end
  end.

End with_env.

End main_legacy.

(** ** viewmodel.py *)

Module viewmodel.

(** [range(lo, hi)] *)
Definition py_range (lo hi : Z) : list Z :=
  (λ i, lo + Z.of_nat i)%Z <$> seq 0 (Z.to_nat (hi - lo)).

(** A bound of a slice of a list of length [len], as Python adjusts it. *)
Definition slice_bound (len i : Z) : Z :=
  let i := if (i <? 0)%Z then (i + len)%Z else i in
  Z.max 0 (Z.min i len).

(** [l[start:stop]] as the positions in [l] of the objects it holds: the
    slice is a new list of the same [Address] objects, so an assignment
    to a field of one of them is seen through [self.addresses]. *)
Definition slice_refs (len start stop : Z) : list nat :=
  let start := slice_bound len start in
  let stop := slice_bound len stop in
  seq (Z.to_nat start) (Z.to_nat (stop - start)).

(** [address.latitude = lat; address.longitude = lng] *)
Definition with_coordinates (lat lng : option coord) (a : Address) : Address :=
  mkAddress (original a) (cleaned a) lat lng.

(** The dictionary [save_results] builds from the geocoded addresses. *)
Definition coordinate_map (float_str : coord → str) (addresses : list Address)
    : gmap str (option str) :=
  foldl (λ m address,
           if is_geocoded address
           then <[original address := coordinates float_str address]> m
           else m)
        ∅ addresses.

(** [failed_addresses] of [print_final_summary] *)
Definition failed_addresses (addresses : list Address) : list str :=
  cleaned <$> filter (λ addr, negb (is_geocoded addr)) addresses.

(** [successful_count] of [print_final_summary] *)
Definition successful_count (addresses : list Address) : Z :=
  Z.of_nat (length (filter (λ addr, is_geocoded addr) addresses)).

(** The figures [print_final_summary] prints. *)
Record Summary := mkSummary {
  sum_total : Z;                 (* stats.total_addresses *)
  sum_successful : Z;            (* stats.successful_geocodes *)
  sum_rate : Q;                  (* stats.success_rate *)
  sum_failed : Z;                (* stats.failed_geocodes *)
  sum_failed_sample : list str;  (* failed_addresses[:10] *)
  sum_failed_more : option Z;    (* "... and N more", when there are more than 10 *)
  sum_map_entries : Z;           (* successful_count, given as the entries of both maps *)
  sum_cache_entries : Z;         (* cache_service.size() *)
}.

Section with_env.
Context (env : Env) (config : GeocodingConfig).
Local Open Scope pym_scope.

(** The state [GeocodingViewModel.__init__] builds before it loads the
    cache, in a world whose cache file is [file]. *)
Definition new_state (file : file_state) : State :=
  mkState ∅ [] new_stats file [] [].

(** [GeocodingViewModel.__init__] *)
Definition init : M unit :=
  services.load_cache env;;
  ret tt.

(** [row['Shipping Address']] *)
Definition shipping_address (row : option pyval) : res pyval :=
  match row with
  | Some cell => Ret cell
  | None => Raise KeyError
  end.

(** [GeocodingViewModel.load_addresses] *)
Definition load_addresses : M bool :=
  try_except
    (df ← services.load_csv env;
     modify (set_addresses (λ _, []));;
     for_each df (λ row,
       cell ← lift (shipping_address row);
       let original :=
         match cell with
         | PyStr s => strip_chars [34%N] s
         | _ => []
         end in
       let cleaned := services.clean_address (PyStr original) in
       modify (set_addresses (λ l, l ++ [mkAddress original cleaned None None])));;
     addresses ← gets s_addresses;
     let n := Z.of_nat (length addresses) in
     modify (set_stats (λ s,
       mkStats n (processed_addresses s) (successful_geocodes s)
               (failed_geocodes s) (current_batch s) (total_batches s)));;
     batches ← lift (floordiv (n + batch_size config - 1) (batch_size config));
     modify (set_stats (λ s,
       mkStats (total_addresses s) (processed_addresses s) (successful_geocodes s)
               (failed_geocodes s) (current_batch s) batches));;
     ret true)
    (λ e, ret false).

(** The loop of [process_batch] over the objects of the batch, with the
    two counters of [batch_stats]. *)
Fixpoint process_records (batch : list nat) (processed successful : Z)
    : M (Z * Z) :=
  match batch with
  | [] => ret (processed, successful)
  | i :: rest =>
      addresses ← gets s_addresses;
      match addresses !! i with
      | None => process_records rest processed successful
      | Some address =>
          '(lat, lng) ← services.geocode_address env (cleaned address);
          modify (set_addresses (alter (with_coordinates lat lng) i));;
          let processed := (processed + 1)%Z in
          let successful :=
            if is_geocoded (with_coordinates lat lng address)
            then (successful + 1)%Z else successful in
          (if (processed mod 100 =? 0)%Z
           then services.save_cache env else ret tt);;
          process_records rest processed successful
      end
  end.

(** [GeocodingViewModel.process_batch] *)
Definition process_batch (batch_addresses : list nat) (batch_num : Z) : M unit :=
  '(processed, successful) ← process_records batch_addresses 0 0;
  modify (set_stats (λ s,
    let processed_total := (processed_addresses s + processed)%Z in
    let successful_total := (successful_geocodes s + successful)%Z in
    mkStats (total_addresses s) processed_total successful_total
            (processed_total - successful_total) batch_num (total_batches s))).

(** [GeocodingViewModel.save_results] *)
Definition save_results : M unit :=
  try_except
    (addresses ← gets s_addresses;
     services.save_csv env addresses;;
     let coordinate_map := coordinate_map (float_str env) addresses in
     services.save_json env coordinate_map;;
     stats ← gets s_stats;
     rate ← lift (success_rate stats);
     services.save_python_dict env coordinate_map (total_addresses stats) rate)
    (λ e, ret tt).

(** [time.sleep(seconds)] *)
Definition sleep (seconds : Z) : M unit := modify (log_event (Slept seconds)).

(** [GeocodingViewModel._print_progress]: the two percentages are computed
    for the message. *)
Definition _print_progress : M unit :=
  stats ← gets s_stats;
  _ ← lift (progress_percentage stats);
  _ ← lift (success_rate stats);
  ret tt.

(** [GeocodingViewModel.process_all_addresses] *)
Definition process_all_addresses : M bool :=
  addresses ← gets s_addresses;
  match addresses with
  | [] => ret false
  | _ :: _ =>
      try_except
        (stats ← gets s_stats;
         for_each (py_range 1 (total_batches stats + 1)) (λ batch_num,
           addresses ← gets s_addresses;
           let n := Z.of_nat (length addresses) in
           let start_idx := ((batch_num - 1) * batch_size config)%Z in
           let end_idx := Z.min (start_idx + batch_size config) n in
           let batch_addresses := slice_refs n start_idx end_idx in
           process_batch batch_addresses batch_num;;
           save_results;;
           services.save_cache env;;
           _print_progress;;
           stats ← gets s_stats;
           if (batch_num <? total_batches stats)%Z
           then sleep 2 else ret tt);;
         ret true)
        (λ e, ret false)
  end.

(** The calls [main] makes on a fresh view model. *)
Definition run : M bool :=
  init;;
  loaded ← load_addresses;
  if loaded then process_all_addresses else ret false.

(** [GeocodingViewModel.print_final_summary], as the figures it prints. *)
Definition print_final_summary : M Summary :=
  cache_entries ← services.cache_size;
  stats ← gets s_stats;
  rate ← lift (success_rate stats);
  addresses ← gets s_addresses;
  let failed_addresses := failed_addresses addresses in
  let more :=
    if (10 <? Z.of_nat (length failed_addresses))%Z
    then Some (Z.of_nat (length failed_addresses) - 10)%Z else None in
  let successful_count := successful_count addresses in
  ret (mkSummary (total_addresses stats) (successful_geocodes stats) rate
                 (failed_geocodes stats) (take 10 failed_addresses) more
                 successful_count cache_entries).

End with_env.

End viewmodel.

(** ** utils.py *)

Module utils.

(** The truth value of a Python value ([not v] is its negation). *)
Definition truthy (v : pyval) : bool :=
  match v with
  | PyStr s => negb (bool_decide (s = []))
  | PyNone => false
  | PyInt n => negb (n =? 0)%Z
  | PyNaN => true
  end.

(** [Validator.is_valid_address] *)
Definition is_valid_address (address : pyval) : bool :=
  if negb (truthy address) || negb (isinstance_str address) then false
  else
    match address with
    | PyStr s => (3 <? length (strip s))%nat
    | _ => false
    end.

End utils.

(** ** Vocabulary of the statements *)

(** [t] occurs in [s] as a contiguous run. *)
Definition infix_of (t s : str) : Prop := ∃ pre post, s = pre ++ t ++ post.

(** Neither boilerplate marker occurs in [s]. *)
Definition marker_free (s : str) : bool :=
  negb (contains services.marker_jumia s) && negb (contains services.marker_point s).

(** The text [clean_address] is left with after its two [replace] passes,
    before it cuts at the comma (empty for a value that is not a string). *)
Definition residue (address : pyval) : str :=
  match address with
  | PyStr a => replace services.marker_point [] (replace services.marker_jumia [] a)
  | _ => []
  end.

(** The text [clean_address] keeps of it: what comes before the first comma
    ([clean_address] returns it stripped). *)
Definition first_piece (address : pyval) : str :=
  fst (split services.comma (residue address)).

(** [s] does not end with a character that [f] strips. *)
Definition clean_end (f : char → bool) (s : str) : Prop :=
  match last s with Some c => f c = false | None => True end.

(** The part of the state the results are read from: all but the cache file
    and the log of file operations. *)
Definition core (st : State) :=
  (s_cache st, s_addresses st, s_stats st, s_ext_calls st).

(** [m] keeps [P] true, whether it returns or raises. *)
Definition preserves {A} (P : State → Prop) (m : M A) : Prop :=
  ∀ st, P st → P (fst (m st)).

(** [m1] and [m2] do the same to the core of the state and end alike. *)
Definition sim {A} (m1 m2 : M A) : Prop :=
  ∀ st1 st2, core st1 = core st2 →
    core (fst (m1 st1)) = core (fst (m2 st2)) ∧ snd (m1 st1) = snd (m2 st2).

(** Two worlds whose input table and geocoder answer alike. *)
Definition agree (env1 env2 : Env) : Prop :=
  csv_cells env1 = csv_cells env2 ∧
  ∀ n a, geocoder env1 n a = geocoder env2 n a.

(** The outcome [geocode_address] makes of an answer of the geocoder. *)
Definition outcome_of (r : ext_response) : outcome :=
  match r with
  | Located lat lng => (Some lat, Some lng)
  | NoMatch | Fails _ => failed_result
  end.

(** A sequence of [geocode_address] calls, one per key. *)
Definition geocode_all (env : Env) (keys : list str) : M unit :=
  for_each keys (λ key, bind (services.geocode_address env key) (λ _, ret tt)).

(** A cache file that loads as the empty cache: no file, an unreadable one,
    or one that holds the empty mapping. *)
Definition holds_no_entry (file : file_state) : Prop :=
  match file with
  | FileHolds m => m = ∅
  | FileAbsent | FileCorrupt => True
  end.

(** The address with the coordinates the cache holds for its cleaned form. *)
Definition fill (cache : gmap str outcome) (a : Address) : Address :=
  match (cache !! cleaned a : option outcome) with
  | Some (lat, lng) => viewmodel.with_coordinates lat lng a
  | None => a
  end.

(** An outcome is a pair of coordinates or the failed pair, never half of one. *)
Definition whole (o : outcome) : Prop :=
  match o with
  | (Some _, Some _) | (None, None) => True
  | _ => False
  end.

(** The row [load_addresses] makes of a cell of the input table. *)
Definition address_of_cell (cell : pyval) : Address :=
  let original :=
    match cell with
    | PyStr s => strip_chars [34%N] s
    | _ => []
    end in
  mkAddress original (services.clean_address (PyStr original)) None None.

(** One turn of the loop of [load_addresses]: the row is added to the
    addresses, unless it has no cell to read. *)
Definition load_row (row : option pyval) : M unit :=
  bind (lift (viewmodel.shipping_address row))
       (λ cell, modify (set_addresses (λ l, l ++ [address_of_cell cell]))).

(** What [run] does after the cache is loaded. *)
Definition load_and_process (env : Env) (config : GeocodingConfig) : M bool :=
  bind (viewmodel.load_addresses env config)
       (λ loaded, if loaded then viewmodel.process_all_addresses env config else ret false).

(** The state [load_addresses] leaves when the table is read: the cache, the
    files and the counters of work done are as they were. *)
Definition loaded (cells : list pyval) (batches : Z) (st : State) : State :=
  mkState (s_cache st) (address_of_cell <$> cells)
          (mkStats (Z.of_nat (length cells))
                   (processed_addresses (s_stats st)) (successful_geocodes (s_stats st))
                   (failed_geocodes (s_stats st)) (current_batch (s_stats st)) batches)
          (s_cache_file st) (s_ext_calls st) (s_events st).

(** What a lookup reads and writes: the cache and the log of external calls. *)
Definition lookups (st : State) : gmap str outcome * list str :=
  (s_cache st, s_ext_calls st).

(** [m] returns normally and leaves the core of the state alone. *)
Definition silent (m : M unit) : Prop :=
  ∀ st, ∃ st', m st = (st', Ret tt) ∧ core st' = core st.

(** The state after the first [m] rows of [st0] were processed: they hold
    the outcome the cache has for their cleaned form, the others are as they
    were; the cache and the external calls are those of looking the [m]
    cleaned forms up in order; the counters grew accordingly. *)
Definition rows_done (env : Env) (st0 st : State) (m : nat) : Prop :=
  let rows := take m (s_addresses st0) in
  s_addresses st = (fill (s_cache st) <$> rows) ++ drop m (s_addresses st0) ∧
  lookups st = lookups (fst (geocode_all env (cleaned <$> rows) st0)) ∧
  total_addresses (s_stats st) = total_addresses (s_stats st0) ∧
  total_batches (s_stats st) = total_batches (s_stats st0) ∧
  processed_addresses (s_stats st)
  = (processed_addresses (s_stats st0) + Z.of_nat m)%Z ∧
  successful_geocodes (s_stats st)
  = (successful_geocodes (s_stats st0)
     + viewmodel.successful_count (fill (s_cache st) <$> rows))%Z.

(** The entries [process_batch] adds to the log of file operations for a
    batch whose rows have the cleaned forms [keys], started in [st]: one
    cache save after every hundredth row, holding the cache as the lookups
    of the rows up to there have left it, or a failure when the file
    operation fails. *)
Definition batch_saves (env : Env) (st : State) (keys : list str) : list event :=
  (λ j, match io env (length (s_events st) + j) with
        | IoOk => WroteCache (s_cache (fst (geocode_all env (take (100 * S j) keys) st)))
        | IoFailsEarly | IoFailsLate => IoFailed
        end) <$> seq 0 (length keys / 100).

(** One turn of the loop of [process_all_addresses]: the batch, the
    checkpoint, the progress message and the pause. *)
Definition batch_turn (env : Env) (config : GeocodingConfig) (batch_num : Z) : M unit :=
  bind (gets s_addresses) (λ addresses,
    let n := Z.of_nat (length addresses) in
    let start_idx := ((batch_num - 1) * batch_size config)%Z in
    let end_idx := Z.min (start_idx + batch_size config) n in
    let batch_addresses := viewmodel.slice_refs n start_idx end_idx in
    bind (viewmodel.process_batch env batch_addresses batch_num) (λ _,
    bind (viewmodel.save_results env) (λ _,
    bind (services.save_cache env) (λ _,
    bind viewmodel._print_progress (λ _,
    bind (gets s_stats) (λ stats,
      if (batch_num <? total_batches stats)%Z
      then viewmodel.sleep 2 else ret tt)))))).

(** The entries [save_results] adds to a log of [n] entries: the table, the
    mapping as JSON, the mapping as a Python file with the total and the
    success rate in its heading; the first write that fails ends them. *)
Definition results_log (env : Env) (n : nat) (rows : list Address)
    (total : Z) (rate : Q) : list event :=
  let mapping := viewmodel.coordinate_map (float_str env) rows in
  match io env n with
  | IoOk =>
      WroteCsv rows ::
      match io env (S n) with
      | IoOk =>
          [WroteJson mapping;
           match io env (S (S n)) with
           | IoOk => WrotePythonDict mapping total rate
           | IoFailsEarly | IoFailsLate => IoFailed
           end]
      | IoFailsEarly | IoFailsLate => [IoFailed]
      end
  | IoFailsEarly | IoFailsLate => [IoFailed]
  end.

(** The entries one checkpoint adds to a log of [n] entries: those of
    [save_results], then the save of the cache. *)
Definition checkpoint (env : Env) (n : nat) (rows : list Address)
    (total : Z) (rate : Q) (cache : gmap str outcome) : list event :=
  let results := results_log env n rows total rate in
  results ++ [match io env (n + length results) with
              | IoOk => WroteCache cache
              | IoFailsEarly | IoFailsLate => IoFailed
              end].

(** * Properties *)

(** ** The primitives on small inputs *)

Example replace_leftmost_first :
  replace (lit "aa") (lit "b") (lit "aaa") = lit "ba".
Proof. reflexivity. Qed.

Example replace_empty_pattern :
  replace [] (lit "-") (lit "ab") = lit "-a-b-".
Proof. reflexivity. Qed.

Example split_pieces :
  split services.comma (lit "a,b,,c") = (lit "a", [lit "b"; lit ""; lit "c"]).
Proof. reflexivity. Qed.

Example strip_unicode_space :
  strip ([160; 32] ++ lit "a b" ++ [9; 8239])%N = lit "a b".
Proof. reflexivity. Qed.

Example strip_quotes :
  strip_chars [34%N] ([34%N] ++ lit "Cairo" ++ [34; 34]%N) = lit "Cairo".
Proof. reflexivity. Qed.

Example slice_refs_batches :
  viewmodel.slice_refs 3 0 2 = [0; 1] ∧ viewmodel.slice_refs 3 2 3 = [2] ∧
  viewmodel.slice_refs 1 0 (-5) = [].
Proof. done. Qed.

Example clean_address_prefix_and_comma :
  services.clean_address (PyStr (lit "Jumia- Pargo- Pickup station - Maadi , Cairo"))
  = lit "Maadi".
Proof. vm_compute. reflexivity. Qed.

(** ** The string primitives *)

Section string_facts.
Implicit Types (s t m p old new : str) (c : char) (f : char → bool).

Lemma startswith_spec p s : startswith p s = true ↔ ∃ t, s = p ++ t.
Proof.
  revert s; induction p as [|a p IH]; intros s; simpl.
  - split; [eauto|done].
  - destruct s as [|b s]; [split; [done|intros [t [=]]]|].
    rewrite andb_true_iff, N.eqb_eq, IH. split.
    + intros [-> [t ->]]. eauto.
    + intros [t [= -> ->]]. eauto.
Qed.

Lemma contains_spec m s : contains m s = true ↔ infix_of m s.
Proof.
  unfold infix_of. induction s as [|c s IH]; simpl.
  - rewrite orb_false_r, startswith_spec. split.
    + intros [t ->]. by exists [], t.
    + intros (pre & post & H). destruct pre; simpl in H; [eauto|done].
  - rewrite orb_true_iff, startswith_spec, IH. split.
    + intros [[t ->] | (pre & post & ->)]; [by exists [], t|by exists (c :: pre), post].
    + intros (pre & post & H). destruct pre as [|c' pre]; simpl in H.
      * left; eauto.
      * right. injection H as -> ->. eauto.
Qed.

Lemma infix_of_trans t u s : infix_of t u → infix_of u s → infix_of t s.
Proof.
  intros (p1 & q1 & ->) (p2 & q2 & ->).
  exists (p2 ++ p1), (q1 ++ q2). by rewrite <- !(assoc_L (++)).
Qed.

Lemma contains_infix m t s :
  infix_of t s → contains m t = true → contains m s = true.
Proof. rewrite !contains_spec. eauto using infix_of_trans. Qed.

Lemma not_contains_infix m t s :
  infix_of t s → contains m s = false → contains m t = false.
Proof.
  intros Hts Hs. destruct (contains m t) eqn:Ht; [|done].
  by rewrite (contains_infix m t s Hts Ht) in Hs.
Qed.

Lemma infix_of_elem c t s : infix_of t s → c ∈ t → c ∈ s.
Proof. intros (pre & post & ->) Hc. set_solver. Qed.

Lemma infix_of_length t s : infix_of t s → length t ≤ length s.
Proof. intros (pre & post & ->). rewrite !length_app. lia. Qed.

(** *** [replace] *)

Lemma replace_scan_absent old new s :
  contains old s = false → replace_scan old new 0 s = s.
Proof.
  induction s as [|c s IH]; simpl; [done|].
  intros [Hp Hs]%orb_false_iff. simpl in Hp. rewrite Hp. f_equal. auto.
Qed.

Lemma replace_absent old new s :
  contains old s = false → replace old new s = s.
Proof.
  destruct old as [|a old]; [by destruct s|].
  apply replace_scan_absent.
Qed.

Lemma replace_scan_length_le old k s :
  length (replace_scan old [] k s) ≤ length s.
Proof.
  revert k; induction s as [|c s IH]; intros k; simpl; [done|].
  destruct k as [|k]; [|specialize (IH k); lia].
  destruct (startswith old (c :: s)); simpl.
  - specialize (IH (length old - 1)). lia.
  - specialize (IH 0). lia.
Qed.

Lemma replace_scan_length_lt a old s :
  contains (a :: old) s = true →
  length (replace_scan (a :: old) [] 0 s) < length s.
Proof.
  induction s as [|c s IH]; [done|].
  cbn [contains replace_scan].
  destruct (startswith (a :: old) (c :: s)); cbn [orb app length].
  - intros _. apply Nat.lt_succ_r, replace_scan_length_le.
  - intros Hs. specialize (IH Hs). lia.
Qed.

Lemma replace_length_le old s : length (replace old [] s) ≤ length s.
Proof.
  destruct old as [|a old]; simpl; [|apply replace_scan_length_le].
  induction s as [|c s IH]; simpl in *; [done|]. by apply le_n_S.
Qed.

(** *** [split] *)

Lemma split_fst_prefix c s : ∃ t, s = fst (split c s) ++ t.
Proof.
  induction s as [|b s [t IH]]; simpl; [by exists []|].
  destruct (split c s) as [piece pieces]; simpl in *.
  destruct (b =? c)%N; simpl; [by exists (b :: s)|].
  exists t. by rewrite IH at 1.
Qed.

Lemma split_fst_no_sep c s : c ∉ fst (split c s).
Proof.
  induction s as [|b s IH]; simpl; [set_solver|].
  destruct (split c s) as [piece pieces]; simpl in *.
  destruct (N.eqb_spec b c); simpl; [apply not_elem_of_nil|].
  by apply not_elem_of_cons.
Qed.

Lemma split_no_sep c s : c ∉ s → fst (split c s) = s.
Proof.
  induction s as [|b s IH]; simpl; [done|].
  intros [Hb Hs]%not_elem_of_cons.
  destruct (split c s) as [piece pieces]; simpl in *.
  destruct (N.eqb_spec b c); simpl; [done|]. f_equal. auto.
Qed.

(** *** [strip] *)

Lemma lstrip_with_suffix f s : ∃ pre, s = pre ++ lstrip_with f s.
Proof.
  induction s as [|c s [pre IH]]; simpl; [by exists []|].
  destruct (f c); [|by exists []].
  exists (c :: pre). simpl. by rewrite <- IH.
Qed.

Lemma lstrip_with_head f s :
  match head (lstrip_with f s) with Some c => f c = false | None => True end.
Proof.
  induction s as [|c s IH]; simpl; [done|].
  destruct (f c) eqn:Hc; [done|]. simpl. done.
Qed.

Lemma lstrip_with_id f s :
  match head s with Some c => f c = false | None => True end →
  lstrip_with f s = s.
Proof. destruct s as [|c s]; simpl; [done|]. by intros ->. Qed.

Lemma lstrip_with_clean_end f s : clean_end f s → clean_end f (lstrip_with f s).
Proof.
  unfold clean_end. induction s as [|c s IH]; simpl; [done|].
  destruct (f c) eqn:Hc; [|done].
  intros H. apply IH. destruct s as [|b s]; [done|]. by rewrite last_cons_cons in H.
Qed.

Lemma rstrip_with_clean_end f s : clean_end f (rstrip_with f s).
Proof.
  unfold clean_end, rstrip_with. rewrite last_reverse. apply lstrip_with_head.
Qed.

Lemma rstrip_with_id f s : clean_end f s → rstrip_with f s = s.
Proof.
  unfold clean_end, rstrip_with. rewrite <- head_reverse. intros H.
  by rewrite lstrip_with_id, reverse_involutive.
Qed.

Lemma rstrip_with_prefix f s : ∃ post, s = rstrip_with f s ++ post.
Proof.
  unfold rstrip_with. destruct (lstrip_with_suffix f (reverse s)) as [pre H].
  exists (reverse pre). apply (inj reverse).
  by rewrite reverse_app, !reverse_involutive.
Qed.

Lemma strip_with_infix f s : infix_of (strip_with f s) s.
Proof.
  unfold strip_with.
  destruct (rstrip_with_prefix f s) as [post Hpost].
  destruct (lstrip_with_suffix f (rstrip_with f s)) as [pre Hpre].
  exists pre, post. rewrite (assoc_L (++)), <- Hpre. done.
Qed.

Lemma strip_with_idemp f s : strip_with f (strip_with f s) = strip_with f s.
Proof.
  unfold strip_with at 1.
  rewrite rstrip_with_id.
  - apply lstrip_with_id, lstrip_with_head.
  - apply lstrip_with_clean_end, rstrip_with_clean_end.
Qed.

(** Stripping neither removes nor creates an occurrence of a text that
    starts and ends with characters that are not stripped. *)
Lemma contains_iff m1 s1 m2 s2 :
  (infix_of m1 s1 ↔ infix_of m2 s2) → contains m1 s1 = contains m2 s2.
Proof.
  rewrite <- !contains_spec. intros H.
  destruct (contains m1 s1), (contains m2 s2); try done.
  - symmetry. by apply H.
  - by apply H.
Qed.

Lemma infix_of_reverse m s : infix_of m s → infix_of (reverse m) (reverse s).
Proof.
  intros (pre & post & ->). exists (reverse post), (reverse pre).
  by rewrite !reverse_app, <- (assoc_L (++)).
Qed.

Lemma contains_reverse m s : contains (reverse m) (reverse s) = contains m s.
Proof.
  apply contains_iff. split; [|apply infix_of_reverse].
  intros H%infix_of_reverse. by rewrite !reverse_involutive in H.
Qed.

Lemma contains_lstrip_with f m c s :
  head m = Some c → f c = false →
  contains m (lstrip_with f s) = contains m s.
Proof.
  intros Hm Hc. destruct m as [|c' m]; [done|]. injection Hm as ->.
  induction s as [|d s IH]; [done|].
  cbn [lstrip_with]. destruct (f d) eqn:Hd; [|done].
  rewrite IH. cbn [contains startswith].
  destruct (N.eqb_spec c d) as [->|_]; [congruence|done].
Qed.

Lemma contains_rstrip_with f m c s :
  last m = Some c → f c = false →
  contains m (rstrip_with f s) = contains m s.
Proof.
  intros Hm Hc. unfold rstrip_with.
  rewrite <- (contains_reverse m (reverse _)), reverse_involutive.
  rewrite (contains_lstrip_with f (reverse m) c); [apply contains_reverse| |done].
  by rewrite head_reverse.
Qed.

Lemma contains_strip_with f m c1 c2 s :
  head m = Some c1 → f c1 = false → last m = Some c2 → f c2 = false →
  contains m (strip_with f s) = contains m s.
Proof.
  intros Hh Hc1 Hl Hc2. unfold strip_with.
  by rewrite (contains_lstrip_with f m c1), (contains_rstrip_with f m c2).
Qed.

End string_facts.

(** ** The normaliser *)

Section normaliser.
Import services.

Lemma marker_free_spec s :
  marker_free s = true ↔
  contains marker_jumia s = false ∧ contains marker_point s = false.
Proof.
  unfold marker_free. rewrite andb_true_iff, !negb_true_iff. done.
Qed.

Lemma clean_address_infix_residue x : infix_of (clean_address x) (residue x).
Proof.
  destruct x as [a| | |]; try by exists [], [].
  simpl. eapply infix_of_trans; [apply strip_with_infix|].
  destruct (split_fst_prefix comma
              (replace marker_point [] (replace marker_jumia [] a))) as [t Ht].
  by exists [], t.
Qed.

Lemma clean_address_no_comma x : comma ∉ clean_address x.
Proof.
  destruct x as [a| | |]; try apply not_elem_of_nil.
  simpl. intros Hc. eapply split_fst_no_sep, infix_of_elem, Hc.
  apply strip_with_infix.
Qed.

Lemma clean_address_stripped x : strip (clean_address x) = clean_address x.
Proof.
  destruct x as [a| | |]; try done. apply strip_with_idemp.
Qed.

(** A text with no marker, no comma and nothing to strip is its own
    cleaned form. *)
Lemma clean_address_fixed y :
  marker_free y = true → comma ∉ y → strip y = y →
  clean_address (PyStr y) = y.
Proof.
  intros [Hj Hp]%marker_free_spec Hc Hs. unfold clean_address.
  rewrite (replace_absent _ _ _ Hj), (replace_absent _ _ _ Hp).
  by rewrite split_no_sep.
Qed.

(** A text that holds a marker gets shorter. *)
Lemma clean_address_shrinks y :
  marker_free y = false → length (clean_address (PyStr y)) < length y.
Proof.
  intros Hy. unfold clean_address.
  set (r1 := replace marker_jumia [] y). set (r2 := replace marker_point [] r1).
  assert (length (strip (fst (split comma r2))) ≤ length r2) as Hcut.
  { etrans; [apply infix_of_length, strip_with_infix|].
    destruct (split_fst_prefix comma r2) as [t Ht].
    rewrite Ht at 2. rewrite length_app. lia. }
  assert (length r2 ≤ length r1) as H21 by apply replace_length_le.
  assert (length r1 ≤ length y) as H1 by apply replace_length_le.
  unfold marker_free in Hy. apply andb_false_iff in Hy as [Hj|Hp].
  - apply negb_false_iff in Hj.
    pose proof (replace_scan_length_lt _ _ _ Hj) as Hlt.
    change (length r1 < length y) in Hlt. lia.
  - apply negb_false_iff in Hp.
    destruct (contains marker_jumia y) eqn:Hj.
    + pose proof (replace_scan_length_lt _ _ _ Hj) as Hlt.
      change (length r1 < length y) in Hlt. lia.
    + assert (r1 = y) as Hr1 by apply (replace_absent _ _ _ Hj).
      rewrite <- Hr1 in Hp.
      pose proof (replace_scan_length_lt _ _ _ Hp) as Hlt.
      change (length r2 < length r1) in Hlt. lia.
Qed.

Lemma clean_address_first_piece x : clean_address x = strip (first_piece x).
Proof. by destruct x. Qed.

(** Both markers start and end with characters that [strip] leaves, so the
    cleaned address holds a marker exactly when the text before the first
    comma does. *)
Lemma marker_free_strip s : marker_free (strip s) = marker_free s.
Proof.
  unfold marker_free, strip.
  rewrite (contains_strip_with isspace marker_jumia 74%N 45%N) by done.
  by rewrite (contains_strip_with isspace marker_point 80%N 45%N).
Qed.

Lemma clean_address_marker_free x :
  marker_free (clean_address x) = marker_free (first_piece x).
Proof. by rewrite clean_address_first_piece, marker_free_strip. Qed.

(** Cleaning a cleaned address again changes nothing exactly when the
    cleaned address holds no marker. *)
Lemma clean_address_idempotent_iff x :
  clean_address (PyStr (clean_address x)) = clean_address x ↔
  marker_free (clean_address x) = true.
Proof.
  split.
  - intros Heq. destruct (marker_free (clean_address x)) eqn:Hm; [done|].
    apply clean_address_shrinks in Hm. rewrite Heq in Hm. lia.
  - intros Hm. apply clean_address_fixed; [done|..].
    + apply clean_address_no_comma.
    + apply clean_address_stripped.
Qed.

End normaliser.

(** C4, as amended.  Take the text an input is left with before its first
    comma once the two [replace] passes have run.  If that text holds
    neither marker (as for every value that is not a string, and for every
    string in which taking the markers out joins no new marker before the
    first comma), the cleaned address holds neither marker and cleaning it
    again gives it back.  If it holds a marker, the cleaned address holds
    one too and cleaning it again gives another text. *)
Theorem clean_address_marker_free_idempotent (x : pyval) :
  (marker_free (first_piece x) = true →
   marker_free (services.clean_address x) = true ∧
   services.clean_address (PyStr (services.clean_address x)) = services.clean_address x) ∧
  (marker_free (first_piece x) = false →
   marker_free (services.clean_address x) = false ∧
   services.clean_address (PyStr (services.clean_address x)) ≠ services.clean_address x).
Proof.
  rewrite <- (clean_address_marker_free x). split; intros Hm.
  - split; [done|]. by apply clean_address_idempotent_iff.
  - split; [done|]. intros Heq%clean_address_idempotent_iff. congruence.
Qed.

Lemma clean_address_marker_free_idempotent_witness :
  let x := PyStr (lit "A,PoPoint 192 -int 192 -") in
  let y := PyStr (lit "PoPoint 192 -int 192 -, A") in
  (marker_free (residue x) = false ∧ marker_free (first_piece x) = true ∧
   marker_free (services.clean_address x) = true ∧
   services.clean_address (PyStr (services.clean_address x)) = services.clean_address x) ∧
  (marker_free (first_piece y) = false ∧
   marker_free (services.clean_address y) = false ∧
   services.clean_address (PyStr (services.clean_address y)) ≠ services.clean_address y).
Proof.
  intros x y. split.
  - split; [vm_compute; reflexivity|]. split; [vm_compute; reflexivity|].
    apply (proj1 (clean_address_marker_free_idempotent x)).
    vm_compute; reflexivity.
  - split; [vm_compute; reflexivity|].
    apply (proj2 (clean_address_marker_free_idempotent y)).
    vm_compute; reflexivity.
Defined.

(** C4 as stated fails: taking "Point 192 -" out of "PoPoint 192 -int 192 -"
    joins "Po" and "int 192 -" into the marker itself, which the cleaned
    address then holds, and cleaning it once more gives the empty string. *)
Lemma clean_address_spliced_marker :
  let x := PyStr (lit "PoPoint 192 -int 192 -") in
  services.clean_address x = lit "Point 192 -" ∧
  contains services.marker_point (services.clean_address x) = true ∧
  services.clean_address (PyStr (services.clean_address x)) = [] ∧
  services.clean_address (PyStr (services.clean_address x)) ≠ services.clean_address x.
Proof. vm_compute. repeat split; done. Qed.

(** C7.  [clean_address] gives the empty string for the empty string and for
    every value that is not a string. *)
Theorem clean_address_empty_or_non_string (x : pyval) :
  x = PyStr [] ∨ isinstance_str x = false →
  services.clean_address x = [].
Proof. intros [->|Hx]; [done|]. by destruct x. Qed.

Lemma clean_address_empty_or_non_string_witness :
  services.clean_address PyNaN = [] ∧ services.clean_address (PyStr (lit "")) = [].
Proof.
  split.
  - apply (clean_address_empty_or_non_string PyNaN). right. reflexivity.
  - apply (clean_address_empty_or_non_string (PyStr (lit ""))). left. reflexivity.
Defined.

(** C10, as amended.  On every string the legacy [clean_address] and
    [GeocodingService.clean_address] give the same text; a value that is not
    a string comes back unchanged from the legacy function, while the
    service's function gives the empty string for it. *)
Theorem clean_address_legacy_agrees_on_strings (x : pyval) :
  if isinstance_str x
  then main_legacy.clean_address x = PyStr (services.clean_address x)
  else main_legacy.clean_address x = x ∧ services.clean_address x = [].
Proof. by destruct x. Qed.

(** C10 as stated fails at [None]: the legacy function returns [None], the
    service's function the empty string. *)
Lemma clean_address_legacy_differs_on_none :
  main_legacy.clean_address PyNone = PyNone ∧
  services.clean_address PyNone = [] ∧
  main_legacy.clean_address PyNone ≠ PyStr (services.clean_address PyNone).
Proof. repeat split; done. Qed.

(** ** The monad *)

Section monad_facts.
Context {A B : Type}.
Implicit Types (P : State → Prop).

Lemma preserves_ret P (a : A) : preserves P (ret a).
Proof. by intros st. Qed.

Lemma preserves_lift P (r : res A) : preserves P (lift r).
Proof. by intros st. Qed.

Lemma preserves_gets P (f : State → A) : preserves P (gets f).
Proof. by intros st. Qed.

Lemma preserves_modify P (f : State → State) :
  (∀ st, P st → P (f st)) → preserves P (modify f).
Proof. intros Hf st. apply Hf. Qed.

Lemma preserves_bind P (m : M A) (k : A → M B) :
  preserves P m → (∀ a, preserves P (k a)) → preserves P (bind m k).
Proof.
  intros Hm Hk st HP. unfold bind. specialize (Hm st HP).
  destruct (m st) as [st' [a|e]]; simpl in *; [by apply Hk|done].
Qed.

Lemma preserves_try_except P (m : M A) (h : exn → M A) :
  preserves P m → (∀ e, preserves P (h e)) → preserves P (try_except m h).
Proof.
  intros Hm Hh st HP. unfold try_except. specialize (Hm st HP).
  destruct (m st) as [st' [a|e]]; simpl in *; [done|by apply Hh].
Qed.

Lemma sim_ret (a : A) : sim (ret a) (ret a).
Proof. by intros st1 st2 H. Qed.

Lemma sim_lift (r : res A) : sim (lift r) (lift r).
Proof. by intros st1 st2 H. Qed.

Lemma sim_gets (f : State → A) :
  (∀ st1 st2, core st1 = core st2 → f st1 = f st2) → sim (gets f) (gets f).
Proof. intros Hf st1 st2 H. simpl. split; [done|]. f_equal. by apply Hf. Qed.

Lemma sim_modify (f : State → State) :
  (∀ st1 st2, core st1 = core st2 → core (f st1) = core (f st2)) →
  sim (modify f) (modify f).
Proof. intros Hf st1 st2 H. simpl. split; [by apply Hf|done]. Qed.

Lemma sim_bind (m1 m2 : M A) (k1 k2 : A → M B) :
  sim m1 m2 → (∀ a, sim (k1 a) (k2 a)) → sim (bind m1 k1) (bind m2 k2).
Proof.
  intros Hm Hk st1 st2 H. unfold bind. destruct (Hm st1 st2 H) as [Hc Hr].
  destruct (m1 st1) as [st1' r1], (m2 st2) as [st2' r2]; simpl in *; subst r2.
  destruct r1 as [a|e]; [by apply Hk|done].
Qed.

Lemma sim_try_except (m1 m2 : M A) (h1 h2 : exn → M A) :
  sim m1 m2 → (∀ e, sim (h1 e) (h2 e)) →
  sim (try_except m1 h1) (try_except m2 h2).
Proof.
  intros Hm Hh st1 st2 H. unfold try_except. destruct (Hm st1 st2 H) as [Hc Hr].
  destruct (m1 st1) as [st1' r1], (m2 st2) as [st2' r2]; simpl in *; subst r2.
  destruct r1 as [a|e]; [done|by apply Hh].
Qed.

(** A command that leaves the core alone and always ends the same way is
    the same command in every world. *)
Lemma sim_silent (m1 m2 : M A) (a : A) :
  (∀ st, core (fst (m1 st)) = core st ∧ snd (m1 st) = Ret a) →
  (∀ st, core (fst (m2 st)) = core st ∧ snd (m2 st) = Ret a) →
  sim m1 m2.
Proof.
  intros H1 H2 st1 st2 H.
  destruct (H1 st1) as [-> ->], (H2 st2) as [-> ->]. done.
Qed.

Lemma try_except_returns (m : M A) (a : A) st :
  (∀ a', a' = a) → snd (try_except m (λ _, ret a) st) = Ret a.
Proof.
  intros Ha. unfold try_except. destruct (m st) as [st' [a'|e]]; simpl; [|done].
  by rewrite (Ha a').
Qed.

End monad_facts.

Lemma bind_run {A B} (m : M A) (k : A → M B) st st1 a :
  m st = (st1, Ret a) → bind m k st = k a st1.
Proof. intros Hm. unfold bind. by rewrite Hm. Qed.

Lemma preserves_for_each {A} (P : State → Prop) (l : list A) (body : A → M unit) :
  (∀ x, preserves P (body x)) → preserves P (for_each l body).
Proof.
  intros Hb. induction l as [|x l IH]; simpl.
  - apply preserves_ret.
  - apply preserves_bind; auto.
Qed.

Lemma sim_for_each {A} (l : list A) (body1 body2 : A → M unit) :
  (∀ x, sim (body1 x) (body2 x)) → sim (for_each l body1) (for_each l body2).
Proof.
  intros Hb. induction l as [|x l IH]; simpl.
  - apply sim_ret.
  - apply sim_bind; auto.
Qed.

(** ** services.py *)

Section services_facts.
Import services.
Context (env : Env).

(** The file operations leave the core of the state alone. *)
Lemma write_file_core e st : core (fst (write_file env e st)) = core st.
Proof. unfold write_file. by destruct (io env _). Qed.

Lemma pickle_dump_core m st : core (fst (pickle_dump env m st)) = core st.
Proof. unfold pickle_dump. by destruct (io env _). Qed.

(** [save_cache] returns normally whatever happens to the file, and
    changes nothing but the file and the log. *)
Lemma save_cache_silent st :
  core (fst (save_cache env st)) = core st ∧ snd (save_cache env st) = Ret tt.
Proof.
  unfold save_cache, try_except, bind, gets, pickle_dump; simpl.
  by destruct (io env _).
Qed.

Lemma save_cache_events st :
  s_events (fst (save_cache env st)) =
  s_events st ++ [match io env (length (s_events st)) with
                  | IoOk => WroteCache (s_cache st)
                  | IoFailsEarly | IoFailsLate => IoFailed
                  end].
Proof.
  unfold save_cache, try_except, bind, gets, pickle_dump; simpl.
  by destruct (io env _).
Qed.

Lemma geocode_address_hit key v st :
  s_cache st !! key = Some v →
  geocode_address env key st = (st, Ret v).
Proof.
  intros Hv. unfold geocode_address, cache_get, bind, gets, ret; simpl.
  by rewrite Hv.
Qed.

(** On a miss the geocoder is called once, and what is made of its answer
    is stored under the key and returned. *)
Lemma geocode_address_miss key st :
  s_cache st !! key = None →
  let o := outcome_of (geocoder env (length (s_ext_calls st)) key) in
  geocode_address env key st =
    (set_cache (<[key := o]>) (log_ext_call key st), Ret o).
Proof.
  intros Hv. unfold geocode_address, cache_get, bind, gets, ret, try_except,
    call_geocode, cache_set, modify; simpl.
  rewrite Hv. by destruct (geocoder env _ key).
Qed.

Lemma geocode_address_keeps key v key' st :
  s_cache st !! key = Some v →
  s_cache (fst (geocode_address env key' st)) !! key = Some v.
Proof.
  intros Hv. destruct (s_cache st !! key') as [v'|] eqn:Hk'.
  - by rewrite (geocode_address_hit _ _ _ Hk').
  - rewrite (geocode_address_miss _ _ Hk'); simpl.
    rewrite lookup_insert_ne; [done|]. intros ->. congruence.
Qed.

(** The external calls a [geocode_address] adds are calls for its own key,
    and none when the key is cached. *)
Lemma geocode_address_calls key st :
  s_ext_calls (fst (geocode_address env key st)) =
  s_ext_calls st ++ (match s_cache st !! key with Some _ => [] | None => [key] end).
Proof.
  destruct (s_cache st !! key) as [v|] eqn:Hk.
  - rewrite (geocode_address_hit _ _ _ Hk); simpl. by rewrite app_nil_r.
  - by rewrite (geocode_address_miss _ _ Hk).
Qed.

Lemma geocode_all_keeps key v keys st :
  s_cache st !! key = Some v →
  s_cache (fst (geocode_all env keys st)) !! key = Some v.
Proof.
  revert st. unfold geocode_all.
  apply (preserves_for_each (λ st, s_cache st !! key = Some v)).
  intros key'. apply preserves_bind; [|intros; apply preserves_ret].
  intros st. apply geocode_address_keeps.
Qed.

Lemma geocode_all_calls key v keys st :
  s_cache st !! key = Some v →
  ∃ calls, s_ext_calls (fst (geocode_all env keys st)) = s_ext_calls st ++ calls
           ∧ key ∉ calls.
Proof.
  revert st. induction keys as [|key' keys IH]; intros st Hv.
  - exists []. split; [by rewrite app_nil_r|apply not_elem_of_nil].
  - unfold geocode_all; simpl. unfold bind at 1 2; simpl.
    pose proof (geocode_address_keeps key v key' st Hv) as Hv'.
    pose proof (geocode_address_calls key' st) as Hc.
    destruct (geocode_address env key' st) as [st1 [o|e]] eqn:Hg; simpl in *.
    + destruct (IH st1 Hv') as (calls & Hcalls & Hnot).
      unfold geocode_all in Hcalls. rewrite Hcalls, Hc.
      eexists. rewrite <- (assoc_L (++)). split; [done|].
      destruct (s_cache st !! key') eqn:Hk'; [done|].
      apply not_elem_of_cons. split; [|done]. intros ->. congruence.
    + exists (match s_cache st !! key' with Some _ => [] | None => [key'] end).
      split; [done|].
      destruct (s_cache st !! key') eqn:Hk'; [apply not_elem_of_nil|].
      apply not_elem_of_cons. split; [|apply not_elem_of_nil]. intros ->. congruence.
Qed.

(** Loading a cache file that holds [m], when the read goes well, makes [m]
    the cache. *)
Lemma load_cache_holds m st :
  s_cache_file st = FileHolds m →
  io env (length (s_events st)) = IoOk →
  s_cache (fst (load_cache env st)) = m.
Proof.
  intros Hf Hio. unfold load_cache, os_path_exists, bind, gets, ret, try_except,
    pickle_load, modify; simpl.
  rewrite Hf; simpl. by rewrite Hio, Hf.
Qed.

End services_facts.

(** ** viewmodel.py *)

Lemma core_fields st1 st2 :
  core st1 = core st2 →
  s_cache st1 = s_cache st2 ∧ s_addresses st1 = s_addresses st2 ∧
  s_stats st1 = s_stats st2 ∧ s_ext_calls st1 = s_ext_calls st2.
Proof. unfold core. by intros [= -> -> -> ->]. Qed.

(** A step on a field of the core that does not look at the rest. *)
Ltac core_step :=
  let H := fresh in
  intros ? ? H; apply core_fields in H as (? & ? & ? & ?);
  unfold core; simpl; congruence.

(** What leaves the core alone keeps every property of the core. *)
Lemma silent_preserves {A} (Q : _ → Prop) (m : M A) :
  (∀ st, core (fst (m st)) = core st) → preserves (λ st, Q (core st)) m.
Proof. intros Hm st HQ. by rewrite Hm. Qed.

Ltac sim_step :=
  first
    [ apply sim_ret | apply sim_lift
    | apply sim_gets; core_step
    | apply sim_modify; core_step
    | apply sim_bind; [|intros ?]
    | apply sim_try_except; [|intros ?]
    | apply sim_for_each; intros ?
    | match goal with
      | |- sim (match ?x with _ => _ end) (match ?x with _ => _ end) => destruct x
      | |- sim (if ?x then _ else _) (if ?x then _ else _) => destruct x
      end ].

Section viewmodel_facts.
Import services viewmodel.

Lemma save_results_silent env st :
  core (fst (save_results env st)) = core st ∧ snd (save_results env st) = Ret tt.
Proof.
  split.
  - revert st. 
    assert (∀ c, preserves (λ st, core st = c) (save_results env)) as H.
    { intros c. unfold save_results, save_csv, save_json, save_python_dict.
      apply preserves_try_except; [|intros; apply preserves_ret].
      repeat first
        [ apply preserves_gets | apply preserves_lift
        | apply preserves_bind; [|intros ?]
        | intros st <-; apply write_file_core ]. }
    intros st. by apply H.
  - apply try_except_returns. by intros [].
Qed.

Lemma sim_save_cache env1 env2 : sim (save_cache env1) (save_cache env2).
Proof. apply (sim_silent _ _ tt); apply save_cache_silent. Qed.

Lemma sim_save_results env1 env2 : sim (save_results env1) (save_results env2).
Proof. apply (sim_silent _ _ tt); apply save_results_silent. Qed.

Lemma sim_geocode_address env1 env2 key :
  agree env1 env2 → sim (geocode_address env1 key) (geocode_address env2 key).
Proof.
  intros [_ Hg] st1 st2 Hcore.
  pose proof Hcore as (Hc & Ha & Hs & He)%core_fields.
  destruct (s_cache st1 !! key) as [v|] eqn:Hk.
  - rewrite (geocode_address_hit env1 _ _ _ Hk).
    rewrite Hc in Hk. by rewrite (geocode_address_hit env2 _ _ _ Hk).
  - rewrite (geocode_address_miss env1 _ _ Hk).
    rewrite Hc in Hk. rewrite (geocode_address_miss env2 _ _ Hk).
    unfold core; simpl. by rewrite Hg, Hc, Ha, Hs, He.
Qed.

Lemma sim_process_records env1 env2 batch processed successful :
  agree env1 env2 →
  sim (process_records env1 batch processed successful)
      (process_records env2 batch processed successful).
Proof.
  intros Hagree. revert processed successful.
  induction batch as [|i batch IH]; intros processed successful; simpl.
  - apply sim_ret.
  - apply sim_bind; [apply sim_gets; core_step|]. intros addresses.
    destruct (addresses !! i) as [address|]; [|apply IH].
    apply sim_bind; [by apply sim_geocode_address|]. intros [lat lng].
    apply sim_bind; [apply sim_modify; core_step|]. intros _.
    apply sim_bind; [|intros _; apply IH].
    destruct (_ =? _)%Z; [apply sim_save_cache|apply sim_ret].
Qed.

Lemma sim_process_batch env1 env2 batch batch_num :
  agree env1 env2 →
  sim (process_batch env1 batch batch_num) (process_batch env2 batch batch_num).
Proof.
  intros Hagree. unfold process_batch.
  apply sim_bind; [by apply sim_process_records|]. intros [processed successful].
  apply sim_modify; core_step.
Qed.

Lemma sim_process_all_addresses env1 env2 config :
  agree env1 env2 →
  sim (process_all_addresses env1 config) (process_all_addresses env2 config).
Proof.
  intros Hagree. unfold process_all_addresses, sleep, _print_progress.
  apply sim_bind; [apply sim_gets; core_step|]. intros [|a addresses]; [apply sim_ret|].
  apply sim_try_except; [|intros; apply sim_ret].
  apply sim_bind; [apply sim_gets; core_step|]. intros stats.
  apply sim_bind; [|intros; apply sim_ret].
  apply sim_for_each. intros batch_num.
  apply sim_bind; [apply sim_gets; core_step|]. intros addresses'.
  apply sim_bind; [by apply sim_process_batch|]. intros _.
  apply sim_bind; [apply sim_save_results|]. intros _.
  apply sim_bind; [apply sim_save_cache|]. intros _.
  repeat sim_step.
Qed.

Lemma sim_load_addresses env1 env2 config :
  agree env1 env2 →
  sim (load_addresses env1 config) (load_addresses env2 config).
Proof.
  intros [Hcsv _]. unfold load_addresses, load_csv. rewrite Hcsv.
  repeat sim_step.
Qed.

Lemma process_records_unfold env i rest p s st :
  process_records env (i :: rest) p s st =
  match s_addresses st !! i with
  | None => process_records env rest p s st
  | Some address =>
      match geocode_address env (cleaned address) st with
      | (st1, Ret (lat, lng)) =>
          match (if ((p + 1) mod 100 =? 0)%Z then save_cache env else ret tt)
                  (set_addresses (alter (with_coordinates lat lng) i) st1) with
          | (st3, Ret _) =>
              process_records env rest (p + 1)
                (if is_geocoded (with_coordinates lat lng address) then s + 1 else s)%Z st3
          | (st3, Raise e) => (st3, Raise e)
          end
      | (st1, Raise e) => (st1, Raise e)
      end
  end.
Proof.
  simpl. unfold bind at 1, gets at 1.
  destruct (s_addresses st !! i) as [a|]; [|done].
  unfold bind at 1.
  destruct (geocode_address env (cleaned a) st) as [st1 [[lat lng]|e]]; [|done].
  unfold bind at 1, modify at 1. unfold bind at 1.
  by destruct ((if ((p + 1) mod 100 =? 0)%Z then save_cache env else ret tt) _)
    as [st3 [[]|e]].
Qed.

(** The cache keeps an entry through a whole batch run. *)
Lemma process_records_keeps env key v batch processed successful :
  preserves (λ st, s_cache st !! key = Some v)
            (process_records env batch processed successful).
Proof.
  revert processed successful.
  induction batch as [|i batch IH]; intros processed successful; simpl.
  - apply preserves_ret.
  - apply preserves_bind; [apply preserves_gets|]. intros addresses.
    destruct (addresses !! i) as [address|]; [|apply IH].
    apply preserves_bind; [intros st; apply geocode_address_keeps|]. intros [lat lng].
    apply preserves_bind; [by apply preserves_modify|]. intros _.
    apply preserves_bind; [|intros _; apply IH].
    destruct (_ =? _)%Z; [|apply preserves_ret].
    apply (silent_preserves (λ c, c.1.1.1 !! key = Some v)), save_cache_silent.
Qed.

Lemma process_all_addresses_keeps env config key v :
  preserves (λ st, s_cache st !! key = Some v) (process_all_addresses env config).
Proof.
  unfold process_all_addresses, sleep, process_batch, _print_progress.
  apply preserves_bind; [apply preserves_gets|]. intros [|a addresses]; [apply preserves_ret|].
  apply preserves_try_except; [|intros; apply preserves_ret].
  apply preserves_bind; [apply preserves_gets|]. intros stats.
  apply preserves_bind; [|intros; apply preserves_ret].
  apply preserves_for_each. intros batch_num.
  apply preserves_bind; [apply preserves_gets|]. intros addresses'.
  apply preserves_bind.
  { apply preserves_bind; [apply process_records_keeps|]. intros [processed successful].
    by apply preserves_modify. }
  intros _. apply preserves_bind.
  { apply (silent_preserves (λ c, c.1.1.1 !! key = Some v)), save_results_silent. }
  intros _. apply preserves_bind.
  { apply (silent_preserves (λ c, c.1.1.1 !! key = Some v)), save_cache_silent. }
  intros _. apply preserves_bind.
  { repeat first [ apply preserves_ret | apply preserves_lift | apply preserves_gets
                 | apply preserves_bind; [|intros ?] ]. }
  intros _. apply preserves_bind; [apply preserves_gets|]. intros stats'.
  destruct (_ <? _)%Z; [by apply preserves_modify|apply preserves_ret].
Qed.

End viewmodel_facts.

Section load_facts.
Import services viewmodel.

Lemma for_each_append cells st :
  for_each (Some <$> cells) load_row st
  = (set_addresses (λ l, l ++ (address_of_cell <$> cells)) st, Ret tt).
Proof.
  revert st. induction cells as [|cell cells IH]; intros st; simpl.
  - unfold ret. f_equal. destruct st; unfold set_addresses; simpl.
    by rewrite app_nil_r.
  - unfold bind at 1, load_row at 1, bind, lift, modify at 1; simpl. rewrite IH. f_equal.
    destruct st; unfold set_addresses; simpl. by rewrite <- (assoc_L (++)).
Qed.

(** The loop stops at the first row that has no cell to read; the rows
    before it are added. *)
Lemma for_each_append_missing cells rest st :
  for_each ((Some <$> cells) ++ None :: rest) load_row st
  = (set_addresses (λ l, l ++ (address_of_cell <$> cells)) st, Raise KeyError).
Proof.
  revert st. induction cells as [|cell cells IH]; intros st; simpl.
  - unfold bind, load_row, bind, lift; simpl. f_equal.
    destruct st; unfold set_addresses; simpl. by rewrite app_nil_r.
  - unfold bind at 1, load_row at 1, bind, lift, modify at 1; simpl. rewrite IH. f_equal.
    destruct st; unfold set_addresses; simpl. by rewrite <- (assoc_L (++)).
Qed.

(** Every table is made of rows that all have the cell, or has a first row
    without it. *)
Lemma rows_cells (rows : list (option pyval)) :
  ∃ cells, rows = Some <$> cells ∨ ∃ rest, rows = (Some <$> cells) ++ None :: rest.
Proof.
  induction rows as [|[cell|] rows (cells & IH)].
  - exists []. by left.
  - exists (cell :: cells). destruct IH as [->|[rest ->]]; [by left|right; by exists rest].
  - exists []. right. by exists rows.
Qed.

Lemma load_addresses_run env config cells st :
  csv_cells env = Ret (Some <$> cells) →
  load_addresses env config st =
  if (batch_size config =? 0)%Z
  then (loaded cells (total_batches (s_stats st)) st, Ret false)
  else (loaded cells ((Z.of_nat (length cells) + batch_size config - 1)
                      / batch_size config)%Z st, Ret true).
Proof.
  intros Hcsv. unfold load_addresses, load_csv. rewrite Hcsv.
  unfold try_except, bind at 1 2 3, lift at 1, modify at 1.
  change (for_each (Some <$> cells) _) with (for_each (Some <$> cells) load_row).
  rewrite for_each_append.
  unfold bind, gets, modify, lift, ret, floordiv, loaded; simpl.
  rewrite length_fmap.
  by destruct (batch_size config =? 0)%Z.
Qed.

Lemma load_addresses_missing env config cells rest st :
  csv_cells env = Ret ((Some <$> cells) ++ None :: rest) →
  load_addresses env config st
  = (set_addresses (λ _, address_of_cell <$> cells) st, Ret false).
Proof.
  intros Hcsv. unfold load_addresses, load_csv. rewrite Hcsv.
  unfold try_except, bind at 1 2 3, lift at 1, modify at 1.
  change (for_each ((Some <$> cells) ++ None :: rest) _)
    with (for_each ((Some <$> cells) ++ None :: rest) load_row).
  rewrite for_each_append_missing. by destruct st.
Qed.

(** [load_addresses] never touches the cache, the external calls or the
    files, and with a batch size of 0 it returns [False] in every world. *)
Lemma load_addresses_frame env config st :
  s_cache (fst (load_addresses env config st)) = s_cache st ∧
  s_ext_calls (fst (load_addresses env config st)) = s_ext_calls st ∧
  s_events (fst (load_addresses env config st)) = s_events st ∧
  s_cache_file (fst (load_addresses env config st)) = s_cache_file st ∧
  (batch_size config = 0%Z → snd (load_addresses env config st) = Ret false).
Proof.
  destruct (csv_cells env) as [rows|e] eqn:Hcsv.
  - destruct (rows_cells rows) as (cells & [->|[rest ->]]).
    + rewrite (load_addresses_run env config cells st Hcsv).
      destruct (Z.eqb_spec (batch_size config) 0); simpl; repeat split; done.
    + by rewrite (load_addresses_missing env config cells rest st Hcsv).
  - unfold load_addresses, load_csv. by rewrite Hcsv.
Qed.

End load_facts.

Lemma success_rate_returns stats : ∃ rate, success_rate stats = Ret rate.
Proof.
  unfold success_rate, truediv.
  destruct (processed_addresses stats =? 0)%Z; eauto.
Qed.

Lemma progress_percentage_returns stats : ∃ q, progress_percentage stats = Ret q.
Proof.
  unfold progress_percentage, truediv.
  destruct (total_addresses stats =? 0)%Z; eauto.
Qed.

(** ** The claims about the cache and the lookups *)

(** C1.  When the key is in the cache, [geocode_address] returns the cached
    value and leaves the whole state as it was: no external call, no file
    operation, no pause.  Whatever calls follow, none of the external calls
    they make is for that key; and a later run that loads a cache file
    holding this cache gets the same hit.  The cached value may be the
    failed outcome [(None, None)]. *)
Theorem geocode_address_cached_no_external_call env key v st :
  s_cache st !! key = Some v →
  services.geocode_address env key st = (st, Ret v) ∧
  (∀ keys, ∃ calls,
      s_ext_calls (fst (geocode_all env keys st)) = s_ext_calls st ++ calls ∧
      key ∉ calls) ∧
  (∀ env' st',
      s_cache_file st' = FileHolds (s_cache st) →
      io env' (length (s_events st')) = IoOk →
      let st'' := fst (services.load_cache env' st') in
      services.geocode_address env' key st'' = (st'', Ret v)).
Proof.
  intros Hv. split; [by apply geocode_address_hit|]. split.
  - intros keys. by apply (geocode_all_calls env key v).
  - intros env' st' Hfile Hio st''. apply geocode_address_hit.
    unfold st''. by rewrite (load_cache_holds env' _ _ Hfile Hio).
Qed.

Lemma geocode_address_cached_no_external_call_witness :
  let env := mkEnv (λ _ _, Located 1%Q 2%Q) (λ _, IoOk) (Ret []) (λ _, []) in
  let st := mkState {[ lit "B" := failed_result ]} [] new_stats FileAbsent [] [] in
  services.geocode_address env (lit "B") st = (st, Ret failed_result).
Proof.
  intros env st.
  apply (geocode_address_cached_no_external_call env (lit "B") failed_result st).
  vm_compute. reflexivity.
Defined.

(** C3.  [geocode_address] always returns normally, and the outcome it
    returns is in the cache under the key when it returns.  When the key was
    not cached and the external call finds no match or raises, the outcome
    is the failed one, [(None, None)]. *)
Theorem geocode_address_absorbs_failures env key st :
  (∃ o, snd (services.geocode_address env key st) = Ret o ∧
        s_cache (fst (services.geocode_address env key st)) !! key = Some o) ∧
  (s_cache st !! key = None →
   (geocoder env (length (s_ext_calls st)) key = NoMatch ∨
    ∃ e, geocoder env (length (s_ext_calls st)) key = Fails e) →
   snd (services.geocode_address env key st) = Ret failed_result ∧
   s_cache (fst (services.geocode_address env key st)) !! key = Some failed_result).
Proof.
  destruct (s_cache st !! key) as [v|] eqn:Hk.
  - rewrite (geocode_address_hit env _ _ _ Hk); simpl. split; [eauto|done].
  - rewrite (geocode_address_miss env _ _ Hk); simpl. split.
    + eexists. split; [done|]. apply lookup_insert_eq.
    + intros _ [Hr|[e Hr]]; rewrite Hr; simpl; (split; [done|apply lookup_insert_eq]).
Qed.

Lemma geocode_address_absorbs_failures_witness :
  let env := mkEnv (λ _ _, Fails GeocoderError) (λ _, IoOk) (Ret []) (λ _, []) in
  let st := viewmodel.new_state FileAbsent in
  snd (services.geocode_address env (lit "B") st) = Ret failed_result ∧
  s_cache (fst (services.geocode_address env (lit "B") st)) !! lit "B" = Some failed_result.
Proof.
  intros env st.
  apply (geocode_address_absorbs_failures env (lit "B") st).
  - reflexivity.
  - right. exists GeocoderError. reflexivity.
Defined.

(** C5.  Once a key is in the cache with some outcome, no sequence of
    [geocode_address] calls changes what the cache holds for it, and neither
    does a whole [process_all_addresses]. *)
Theorem cache_insert_or_keep env key v st :
  s_cache st !! key = Some v →
  (∀ keys, s_cache (fst (geocode_all env keys st)) !! key = Some v) ∧
  (∀ config, s_cache (fst (viewmodel.process_all_addresses env config st)) !! key = Some v).
Proof.
  intros Hv. split.
  - intros keys. by apply geocode_all_keeps.
  - intros config. by apply (process_all_addresses_keeps env config key v).
Qed.

Lemma cache_insert_or_keep_witness :
  let env := mkEnv (λ _ _, Located 1%Q 2%Q) (λ _, IoOk) (Ret []) (λ _, []) in
  let st := mkState {[ lit "B" := failed_result ]} [] new_stats FileAbsent [] [] in
  s_cache (fst (geocode_all env [lit "A"; lit "B"; lit "B"] st)) !! lit "B"
  = Some failed_result.
Proof.
  intros env st.
  apply (cache_insert_or_keep env (lit "B") failed_result st).
  vm_compute. reflexivity.
Defined.

(** C6.  [load_cache] returns normally in every world, with the cache it
    leaves in memory; when the file is absent, cannot be read or does not
    unpickle, that cache is empty.  [save_cache] returns normally in every
    world and leaves the cache, the addresses and the statistics as they
    were. *)
Theorem cache_file_failures_absorbed env st :
  snd (services.load_cache env st) = Ret (s_cache (fst (services.load_cache env st))) ∧
  (s_cache_file st = FileAbsent ∨ s_cache_file st = FileCorrupt ∨
   io env (length (s_events st)) ≠ IoOk →
   s_cache (fst (services.load_cache env st)) = ∅) ∧
  snd (services.save_cache env st) = Ret tt ∧
  core (fst (services.save_cache env st)) = core st.
Proof.
  split; [|split; [|split; apply save_cache_silent]].
  - unfold services.load_cache, services.os_path_exists, bind, gets, ret,
      try_except, services.pickle_load, modify.
    destruct st as [cache addresses stats file calls events]; simpl.
    destruct file; simpl; [done|..]; by destruct (io env _).
  - unfold services.load_cache, services.os_path_exists, bind, gets, ret,
      try_except, services.pickle_load, modify.
    destruct st as [cache addresses stats file calls events]; simpl.
    intros Hfail.
    destruct file; simpl; [done|..];
      destruct (io env _); simpl; try done.
    by destruct Hfail as [?|[?|?]].
Qed.

Lemma cache_file_failures_absorbed_witness :
  let env := mkEnv (λ _ _, NoMatch) (λ _, IoOk) (Ret []) (λ _, []) in
  let st := mkState {[ lit "A" := failed_result ]} [] new_stats FileCorrupt [] [] in
  s_cache (fst (services.load_cache env st)) = ∅.
Proof.
  intros env st.
  apply (cache_file_failures_absorbed env st).
  right. left. reflexivity.
Defined.

(** C9.  [progress_percentage] is 0.0 when no address is loaded,
    [success_rate] is 0.0 when none is processed, and neither of them ever
    raises [ZeroDivisionError]. *)
Theorem stats_division_guarded (stats : ProcessingStats) :
  (total_addresses stats = 0%Z → progress_percentage stats = Ret 0%Q) ∧
  (processed_addresses stats = 0%Z → success_rate stats = Ret 0%Q) ∧
  (∃ q, progress_percentage stats = Ret q) ∧
  (∃ q, success_rate stats = Ret q).
Proof.
  unfold progress_percentage, success_rate, truediv.
  repeat split.
  - by intros ->.
  - by intros ->.
  - destruct (total_addresses stats =? 0)%Z; eauto.
  - destruct (processed_addresses stats =? 0)%Z; eauto.
Qed.

Lemma stats_division_guarded_witness :
  progress_percentage new_stats = Ret 0%Q ∧ success_rate new_stats = Ret 0%Q.
Proof.
  split.
  - apply (stats_division_guarded new_stats). reflexivity.
  - apply (stats_division_guarded new_stats). reflexivity.
Defined.

(** ** The claims about a run *)

Section run_facts.
Import services viewmodel.

(** [load_cache] returns normally and touches nothing in memory but the
    cache. *)
Lemma load_cache_frame env st :
  snd (load_cache env st) = Ret (s_cache (fst (load_cache env st))) ∧
  s_addresses (fst (load_cache env st)) = s_addresses st ∧
  s_stats (fst (load_cache env st)) = s_stats st ∧
  s_ext_calls (fst (load_cache env st)) = s_ext_calls st.
Proof.
  unfold load_cache, os_path_exists, bind, gets, ret, try_except, pickle_load, modify.
  destruct st as [cache addresses stats file calls events]; simpl.
  destruct file; simpl; [done|..]; by destruct (io env _).
Qed.

Lemma process_all_addresses_nothing env config st :
  s_addresses st = [] → process_all_addresses env config st = (st, Ret false).
Proof.
  intros Ha. unfold process_all_addresses, bind, gets; simpl. by rewrite Ha.
Qed.

(** With an empty table [load_addresses] leaves an empty address list, makes
    no external call and no file operation. *)
Lemma load_addresses_empty env config st :
  csv_cells env = Ret [] →
  s_addresses (fst (load_addresses env config st)) = [] ∧
  s_ext_calls (fst (load_addresses env config st)) = s_ext_calls st ∧
  s_events (fst (load_addresses env config st)) = s_events st ∧
  s_cache (fst (load_addresses env config st)) = s_cache st ∧
  ∃ loaded, snd (load_addresses env config st) = Ret loaded.
Proof.
  intros Hcsv.
  unfold load_addresses, load_csv, try_except, bind, lift, gets, modify, floordiv.
  rewrite Hcsv; simpl. destruct (batch_size config =? 0)%Z; simpl; eauto 10.
Qed.

Lemma run_empty_table env config file :
  csv_cells env = Ret [] →
  ∃ st0 st',
    init env (new_state file) = (st0, Ret tt) ∧
    run env config (new_state file) = (st', Ret false) ∧
    s_ext_calls st' = [] ∧ s_events st' = s_events st0 ∧ s_cache st' = s_cache st0.
Proof.
  intros Hcsv. unfold run, init, bind, ret.
  destruct (load_cache_frame env (new_state file)) as (Hr & Ha & Hs & He).
  destruct (load_cache env (new_state file)) as [st0 r0].
  cbn [fst snd] in *. subst r0.
  destruct (load_addresses_empty env config st0 Hcsv)
    as (Ha' & He' & Hev' & Hc' & loaded & Hl).
  destruct (load_addresses env config st0) as [st1 r1].
  cbn [fst snd] in *. subst r1.
  exists st0, st1. split; [done|].
  rewrite He', He, Hev', Hc'.
  destruct loaded; [|done].
  by rewrite (process_all_addresses_nothing env config st1 Ha').
Qed.

End run_facts.

(** C8.  With no address loaded [process_all_addresses] returns [False] and
    leaves the whole state as it was: no lookup, no save, no pause.  A run
    whose input table is empty ends with [False], having made no external
    call and no file operation after the cache was loaded. *)
Theorem process_all_addresses_empty env config :
  (∀ st, s_addresses st = [] →
         viewmodel.process_all_addresses env config st = (st, Ret false)) ∧
  (∀ file, csv_cells env = Ret [] →
     let st0 := fst (viewmodel.init env (viewmodel.new_state file)) in
     let st' := fst (viewmodel.run env config (viewmodel.new_state file)) in
     snd (viewmodel.run env config (viewmodel.new_state file)) = Ret false ∧
     s_ext_calls st' = [] ∧ s_events st' = s_events st0 ∧ s_cache st' = s_cache st0).
Proof.
  split; [apply process_all_addresses_nothing|].
  intros file Hcsv.
  destruct (run_empty_table env config file Hcsv) as (st0 & st' & -> & -> & H).
  exact (conj eq_refl H).
Qed.

Lemma process_all_addresses_empty_witness :
  let env := mkEnv (λ _ _, Located 1%Q 2%Q) (λ _, IoOk) (Ret []) (λ _, []) in
  let st := viewmodel.new_state FileAbsent in
  viewmodel.process_all_addresses env (mkConfig 2) st = (st, Ret false).
Proof.
  intros env st.
  apply (process_all_addresses_empty env (mkConfig 2)).
  reflexivity.
Defined.

Section scenario_facts.
Import services viewmodel.

Lemma sim_load_and_process env1 env2 config :
  agree env1 env2 →
  sim (load_and_process env1 config) (load_and_process env2 config).
Proof.
  intros Hagree. apply sim_bind; [by apply sim_load_addresses|].
  intros [|]; [by apply sim_process_all_addresses|apply sim_ret].
Qed.

(** From a cache file with no entry, [__init__] returns with the memory of a
    fresh view model. *)
Lemma init_no_entry env file :
  holds_no_entry file →
  ∃ st0, init env (new_state file) = (st0, Ret tt) ∧
         core st0 = core (new_state FileAbsent).
Proof.
  unfold init, load_cache, os_path_exists, bind, gets, ret, try_except,
    pickle_load, modify.
  destruct file as [| |m]; simpl; [eauto|..]; intros Hm;
    destruct (io env 0); simpl; subst; eauto.
Qed.

Lemma run_from_empty_cache env config file :
  holds_no_entry file →
  ∃ st0, core st0 = core (new_state FileAbsent) ∧
         run env config (new_state file) = load_and_process env config st0.
Proof.
  intros Hfile. destruct (init_no_entry env file Hfile) as (st0 & Hinit & Hcore).
  exists st0. split; [done|]. unfold run, bind at 1. by rewrite Hinit.
Qed.

End scenario_facts.

Section scenario_log.
Import services viewmodel.

Lemma print_progress_run st : _print_progress st = (st, Ret tt).
Proof.
  unfold _print_progress, bind, gets, lift, ret.
  destruct (progress_percentage_returns (s_stats st)) as [q ->].
  by destruct (success_rate_returns (s_stats st)) as [r ->].
Qed.

(** [save_results] writes the three files in turn, until a write fails. *)
Lemma save_results_run env st :
  ∃ rate st',
    success_rate (s_stats st) = Ret rate ∧
    save_results env st = (st', Ret tt) ∧
    core st' = core st ∧
    s_events st' =
      s_events st ++ results_log env (length (s_events st)) (s_addresses st)
                       (total_addresses (s_stats st)) rate.
Proof.
  destruct (success_rate_returns (s_stats st)) as (rate & Hrate).
  exists rate.
  unfold save_results, save_csv, save_json, save_python_dict, write_file,
    try_except, bind, gets, lift, results_log.
  destruct st as [cache addresses stats file calls events]; simpl in *.
  unfold log_event, ret; simpl.
  destruct (io env (length events)); simpl; try (eexists; done).
  rewrite length_app, Nat.add_1_r; simpl.
  destruct (io env (S (length events))); simpl;
    try (eexists; split; [done|]; split; [done|]; split; [done|];
         by rewrite <- (assoc_L (++))).
  rewrite Hrate, !length_app, !Nat.add_1_r; simpl.
  destruct (io env (S (S (length events)))); simpl;
    (eexists; split; [done|]; split; [done|]; split; [done|];
     by rewrite <- !(assoc_L (++))).
Qed.

Lemma save_cache_run env st :
  ∃ st', save_cache env st = (st', Ret tt) ∧ core st' = core st ∧
         s_events st' = s_events (fst (save_cache env st)).
Proof.
  destruct (save_cache_silent env st) as [Hc Hr].
  destruct (save_cache env st) as [st' r]; simpl in *. subst r. by exists st'.
Qed.

(** A checkpoint returns normally whatever happens to the files, and only
    adds to the log. *)
Lemma checkpoint_run env st :
  ∃ rate st1 st2,
    success_rate (s_stats st) = Ret rate ∧
    save_results env st = (st1, Ret tt) ∧
    save_cache env st1 = (st2, Ret tt) ∧
    core st2 = core st ∧
    s_events st2 =
      s_events st ++ checkpoint env (length (s_events st)) (s_addresses st)
                       (total_addresses (s_stats st)) rate (s_cache st).
Proof.
  destruct (save_results_run env st) as (rate & st1 & Hrate & Hrun1 & Hcore1 & Hev1).
  destruct (save_cache_run env st1) as (st2 & Hrun2 & Hcore2 & Hev2).
  exists rate, st1, st2. split; [done|]. split; [done|]. split; [done|].
  split; [congruence|].
  rewrite Hev2, save_cache_events, Hev1. unfold checkpoint.
  rewrite <- (assoc_L (++)), length_app.
  by apply core_fields in Hcore1 as (-> & _).
Qed.

(** One turn of the loop, once the batch is processed: the checkpoint, and
    a pause of two seconds unless the batch is the last. *)
Lemma batch_turn_run env config b st st2 :
  process_batch env
    (slice_refs (Z.of_nat (length (s_addresses st))) ((b - 1) * batch_size config)
       (Z.min ((b - 1) * batch_size config + batch_size config)
              (Z.of_nat (length (s_addresses st))))) b st = (st2, Ret tt) →
  ∃ rate st3,
    success_rate (s_stats st2) = Ret rate ∧
    batch_turn env config b st = (st3, Ret tt) ∧
    core st3 = core st2 ∧
    s_events st3 =
      s_events st2 ++
      checkpoint env (length (s_events st2)) (s_addresses st2)
        (total_addresses (s_stats st2)) rate (s_cache st2) ++
      (if (b <? total_batches (s_stats st2))%Z then [Slept 2] else []).
Proof.
  intros Hbatch.
  destruct (checkpoint_run env st2) as (rate & st2a & st2b & Hrate & Hr1 & Hr2 & Hcore & Hev).
  pose proof Hcore as (_ & _ & Hstats & _)%core_fields.
  exists rate.
  exists (if (b <? total_batches (s_stats st2))%Z then log_event (Slept 2) st2b else st2b).
  split; [done|]. split; [|split].
  - unfold batch_turn, bind at 1, gets at 1. cbv zeta.
    rewrite (bind_run _ _ _ _ _ Hbatch), (bind_run _ _ _ _ _ Hr1), (bind_run _ _ _ _ _ Hr2).
    rewrite (bind_run _ _ _ _ _ (print_progress_run st2b)).
    unfold bind, gets. rewrite Hstats. by destruct (_ <? _)%Z.
  - by destruct (_ <? _)%Z.
  - destruct (_ <? _)%Z; simpl; rewrite Hev.
    + by rewrite <- (assoc_L (++)).
    + by rewrite app_nil_r.
Qed.

Lemma process_all_addresses_turns env config st :
  s_addresses st ≠ [] →
  process_all_addresses env config st =
  try_except
    (bind (for_each (py_range 1 (total_batches (s_stats st) + 1)) (batch_turn env config))
          (λ _, ret true))
    (λ e, ret false) st.
Proof.
  intros Hne. unfold process_all_addresses, bind at 1, gets at 1.
  by destruct (s_addresses st).
Qed.

(** The lookups of a batch depend on the world only through the answers of
    the geocoder and the fate of the file operations. *)
Lemma geocode_address_world env1 env2 key st :
  (∀ n a, geocoder env1 n a = geocoder env2 n a) →
  geocode_address env1 key st = geocode_address env2 key st.
Proof.
  intros Hg. destruct (s_cache st !! key) as [v|] eqn:Hk.
  - by rewrite (geocode_address_hit env1 _ _ _ Hk), (geocode_address_hit env2 _ _ _ Hk).
  - by rewrite (geocode_address_miss env1 _ _ Hk), (geocode_address_miss env2 _ _ Hk), Hg.
Qed.

Lemma save_cache_world env1 env2 st :
  (∀ n, io env1 n = io env2 n) → save_cache env1 st = save_cache env2 st.
Proof.
  intros Hio. unfold save_cache, try_except, bind, gets, pickle_dump; simpl.
  by rewrite Hio.
Qed.

Lemma process_records_world env1 env2 batch :
  (∀ n a, geocoder env1 n a = geocoder env2 n a) →
  (∀ n, io env1 n = io env2 n) →
  ∀ p s st, process_records env1 batch p s st = process_records env2 batch p s st.
Proof.
  intros Hg Hio. induction batch as [|i batch IH]; intros p s st; [done|].
  rewrite !process_records_unfold.
  destruct (s_addresses st !! i) as [a|]; [|apply IH].
  rewrite (geocode_address_world env1 env2 _ _ Hg).
  destruct (geocode_address env2 (cleaned a) st) as [st1 [[lat lng]|e]]; [|done].
  assert (∀ x, (if ((p + 1) mod 100 =? 0)%Z then save_cache env1 else ret tt) x
               = (if ((p + 1) mod 100 =? 0)%Z then save_cache env2 else ret tt) x) as ->.
  { intros x. destruct (_ =? _)%Z; [by apply save_cache_world|done]. }
  destruct ((if ((p + 1) mod 100 =? 0)%Z then save_cache env2 else ret tt) _)
    as [st3 [[]|e]]; [|done].
  apply IH.
Qed.

Lemma process_batch_world env1 env2 batch batch_num st :
  (∀ n a, geocoder env1 n a = geocoder env2 n a) →
  (∀ n, io env1 n = io env2 n) →
  process_batch env1 batch batch_num st = process_batch env2 batch batch_num st.
Proof.
  intros Hg Hio. unfold process_batch, bind.
  by rewrite (process_records_world env1 env2 batch Hg Hio).
Qed.

End scenario_log.

Section scenario_run.
Import services viewmodel.

(** The log of the scenario: nothing is written while the two batches are
    looked up, and each batch ends with its checkpoint. *)
Lemma scenario_events env file :
  holds_no_entry file →
  csv_cells env = Ret [Some (PyStr (lit "A, city")); Some (PyStr (lit "Point 192 - B"));
                       Some (PyStr (lit "A, city"))] →
  (∀ n, geocoder env n (lit "A") = Located 1%Q 2%Q) →
  (∀ n, geocoder env n (lit "B") = NoMatch) →
  let st0 := fst (init env (new_state file)) in
  let st := fst (run env (mkConfig 2) (new_state file)) in
  let found := mkAddress (lit "A, city") (lit "A") (Some 1%Q) (Some 2%Q) in
  let pending := mkAddress (lit "A, city") (lit "A") None None in
  let failed := mkAddress (lit "Point 192 - B") (lit "B") None None in
  let cache : gmap str outcome :=
    <[lit "A" := (Some 1%Q, Some 2%Q)]> {[lit "B" := (None, None)]} in
  let first := checkpoint env (length (s_events st0)) [found; failed; pending]
                 3 (1 / 2 * 100)%Q cache in
  let second := checkpoint env (length (s_events st0) + length first + 1)
                  [found; failed; found] 3 (2 / 3 * 100)%Q cache in
  s_events st = s_events st0 ++ first ++ [Slept 2] ++ second.
Proof.
  intros Hfile Hcsv HA HB.
  set (env2 := mkEnv
         (λ n a, if decide (a = lit "A") then Located 1%Q 2%Q
                 else if decide (a = lit "B") then NoMatch
                 else geocoder env n a)
         (io env) (csv_cells env) (float_str env)).
  assert (∀ n a, geocoder env n a = geocoder env2 n a) as Hg.
  { intros n a. simpl. repeat case_decide; subst; auto. }
  assert (∀ n, io env n = io env2 n) as Hio by done.
  destruct (init_no_entry env file Hfile) as (st0 & Hinit & Hcore0).
  unfold run. rewrite (bind_run _ _ _ _ _ Hinit), Hinit. cbn [fst].
  pose proof (load_addresses_run env (mkConfig 2)
                [PyStr (lit "A, city"); PyStr (lit "Point 192 - B"); PyStr (lit "A, city")]
                st0 Hcsv) as Hload.
  cbn [batch_size Z.eqb] in Hload.
  rewrite (bind_run _ _ _ _ _ Hload).
  destruct st0 as [c0 a0 s0 f0 calls0 ev0].
  unfold core in Hcore0; simpl in Hcore0. injection Hcore0 as -> -> -> ->.
  set (st1 := loaded _ _ _) in *. vm_compute in (value of st1).
  rewrite process_all_addresses_turns by done.
  change (py_range 1 (total_batches (s_stats st1) + 1)) with [1; 2]%Z.
  unfold try_except, bind at 1. cbn [for_each].
  (* the first batch *)
  set (st2 := fst (process_batch env2 [0; 1] 1 st1)). vm_compute in (value of st2).
  destruct (batch_turn_run env (mkConfig 2) 1 st1 st2) as (rate1 & st3 & Hrate1 & Hturn1 & Hcore1 & Hev1).
  { rewrite (process_batch_world env env2 _ _ _ Hg Hio). vm_compute. reflexivity. }
  vm_compute in Hrate1. injection Hrate1 as <-.
  rewrite (bind_run _ _ _ _ _ Hturn1).
  destruct st3 as [c3 a3 s3 f3 calls3 ev3].
  unfold core in Hcore1; cbn [s_cache s_addresses s_stats s_ext_calls] in Hcore1.
  injection Hcore1 as -> -> -> ->.
  cbn [s_events s_addresses s_stats s_cache] in Hev1.
  (* the second batch *)
  set (st3 := mkState _ _ _ f3 _ ev3) in *.
  set (st4 := fst (process_batch env2 [2] 2 st3)). vm_compute in (value of st4).
  destruct (batch_turn_run env (mkConfig 2) 2 st3 st4) as (rate2 & st5 & Hrate2 & Hturn2 & Hcore2 & Hev2).
  { rewrite (process_batch_world env env2 _ _ _ Hg Hio). vm_compute. reflexivity. }
  vm_compute in Hrate2. injection Hrate2 as <-.
  rewrite (bind_run _ _ _ _ _ Hturn2).
  cbn [s_events s_addresses s_stats s_cache] in Hev2.
  unfold bind, ret. cbn [fst s_events].
  rewrite Hev2. change (s_events st4) with ev3.
  change (if (2 <? total_batches (s_stats st4))%Z then [Slept 2] else [])
    with (@nil event).
  change (if (1 <? total_batches (s_stats st2))%Z then [Slept 2] else [])
    with [Slept 2] in Hev1.
  change (s_events st2) with ev0 in Hev1.
  rewrite app_nil_r, Hev1, <- !(assoc_L (++)), !length_app, Nat.add_assoc.
  reflexivity.
Qed.

(** What the scenario leaves in memory, whatever happens to the files. *)
Lemma scenario_core env file :
  holds_no_entry file →
  csv_cells env = Ret [Some (PyStr (lit "A, city")); Some (PyStr (lit "Point 192 - B"));
                       Some (PyStr (lit "A, city"))] →
  (∀ n, geocoder env n (lit "A") = Located 1%Q 2%Q) →
  (∀ n, geocoder env n (lit "B") = NoMatch) →
  let st := fst (run env (mkConfig 2) (new_state file)) in
  snd (run env (mkConfig 2) (new_state file)) = Ret true ∧
  s_cache st = <[lit "A" := (Some 1%Q, Some 2%Q)]> {[lit "B" := (None, None)]} ∧
  s_addresses st =
    [mkAddress (lit "A, city") (lit "A") (Some 1%Q) (Some 2%Q);
     mkAddress (lit "Point 192 - B") (lit "B") None None;
     mkAddress (lit "A, city") (lit "A") (Some 1%Q) (Some 2%Q)] ∧
  s_stats st = mkStats 3 3 2 1 2 2 ∧
  s_ext_calls st = [lit "A"; lit "B"].
Proof.
  intros Hfile Hcsv HA HB.
  set (cells := [Some (PyStr (lit "A, city")); Some (PyStr (lit "Point 192 - B"));
                 Some (PyStr (lit "A, city"))]) in *.
  set (env2 := mkEnv
         (λ n a, if decide (a = lit "A") then Located 1%Q 2%Q
                 else if decide (a = lit "B") then NoMatch
                 else geocoder env n a)
         (λ _, IoOk) (Ret cells) (float_str env)).
  assert (agree env env2) as Hagree.
  { split; [done|]. intros n a. simpl. repeat case_decide; subst; auto. }
  destruct (run_from_empty_cache env (mkConfig 2) file Hfile) as (st0 & Hst0 & ->).
  destruct (sim_load_and_process env env2 (mkConfig 2) Hagree
              st0 (new_state FileAbsent) Hst0)
    as [Hcore Hres].
  destruct (load_and_process env (mkConfig 2) st0) as [st' r].
  cbn [fst snd] in *. cbv zeta.
  vm_compute in Hres.
  set (final := core _) in Hcore at 2. vm_compute in (value of final).
  subst final. injection Hcore as Hc Ha Hs He.
  rewrite Ha, Hc, Hs, He. split; [done|].
  repeat split; vm_compute; reflexivity.
Qed.

(** The summary is made from the cache, the addresses and the statistics. *)
Lemma print_final_summary_core st1 st2 :
  core st1 = core st2 →
  snd (print_final_summary st1) = snd (print_final_summary st2).
Proof.
  intros (Hc & Ha & Hs & _)%core_fields.
  unfold print_final_summary, cache_size, bind, gets, lift, ret.
  cbn [fst snd]. rewrite Hc, Ha, Hs.
  by destruct (success_rate (s_stats st2)).
Qed.

End scenario_run.

(** C2.  The scenario of three addresses "A, city", "Point 192 - B",
    "A, city" with batches of 2, a cache that starts empty (no cache file,
    an unreadable one or one with no entry), and a geocoder that answers
    (1.0, 2.0) for "A" and finds nothing for "B", in any world otherwise.
    The run succeeds; the cleaned forms are "A", "B", "A"; both rows
    "A, city" get the coordinates and the row of "B" none; the cache ends as
    {"A": (1.0, 2.0), "B": (None, None)}; the geocoder is called twice, for
    "A" then for "B"; the mapping by original address has the one entry
    "A, city"; and the success rate is 2/3 * 100, between 66.6 and 66.7.
    What the run does to the files is its log after [__init__]: the
    checkpoint of the first batch (the table with the third row still
    without coordinates, the one-entry mapping as JSON and as a Python file
    headed by the total 3 and the rate 50, the cache), a pause of two
    seconds, and the checkpoint of the second batch (the final table, the
    same mapping, the rate 2/3 * 100, the cache); a write that fails ends
    the files of its checkpoint and is logged as a failure.  The summary
    reports 3 addresses, 2 geocoded with rate 2/3 * 100, 1 failed ("B"), and
    2 entries in the cache. *)
Theorem end_to_end_scenario env file :
  holds_no_entry file →
  csv_cells env = Ret [Some (PyStr (lit "A, city")); Some (PyStr (lit "Point 192 - B"));
                       Some (PyStr (lit "A, city"))] →
  (∀ n, geocoder env n (lit "A") = Located 1%Q 2%Q) →
  (∀ n, geocoder env n (lit "B") = NoMatch) →
  let st0 := fst (viewmodel.init env (viewmodel.new_state file)) in
  let st := fst (viewmodel.run env (mkConfig 2) (viewmodel.new_state file)) in
  let found := mkAddress (lit "A, city") (lit "A") (Some 1%Q) (Some 2%Q) in
  let pending := mkAddress (lit "A, city") (lit "A") None None in
  let failed := mkAddress (lit "Point 192 - B") (lit "B") None None in
  let cache : gmap str outcome :=
    <[lit "A" := (Some 1%Q, Some 2%Q)]> {[lit "B" := (None, None)]} in
  let mapping : gmap str (option str) :=
    {[lit "A, city" := Some (float_str env 1%Q ++ lit "," ++ float_str env 2%Q)]} in
  snd (viewmodel.run env (mkConfig 2) (viewmodel.new_state file)) = Ret true ∧
  cleaned <$> s_addresses st = [lit "A"; lit "B"; lit "A"] ∧
  s_addresses st = [found; failed; found] ∧
  s_cache st = cache ∧
  s_ext_calls st = [lit "A"; lit "B"] ∧
  viewmodel.coordinate_map (float_str env) (s_addresses st) = mapping ∧
  size (viewmodel.coordinate_map (float_str env) (s_addresses st)) = 1 ∧
  processed_addresses (s_stats st) = 3%Z ∧
  successful_geocodes (s_stats st) = 2%Z ∧
  (∃ rate, success_rate (s_stats st) = Ret rate ∧
           (rate == 2 / 3 * 100)%Q ∧ (666 # 10 < rate)%Q ∧ (rate < 667 # 10)%Q) ∧
  (let first := checkpoint env (length (s_events st0)) [found; failed; pending]
                  3 (1 / 2 * 100)%Q cache in
   let second := checkpoint env (length (s_events st0) + length first + 1)
                   [found; failed; found] 3 (2 / 3 * 100)%Q cache in
   s_events st = s_events st0 ++ first ++ [Slept 2] ++ second) ∧
  ((∀ n, io env n = IoOk) →
   s_events st =
     s_events st0 ++
     [WroteCsv [found; failed; pending]; WroteJson mapping;
      WrotePythonDict mapping 3 (1 / 2 * 100)%Q; WroteCache cache;
      Slept 2;
      WroteCsv [found; failed; found]; WroteJson mapping;
      WrotePythonDict mapping 3 (2 / 3 * 100)%Q; WroteCache cache]) ∧
  snd (viewmodel.print_final_summary st) =
    Ret (viewmodel.mkSummary 3 2 (2 / 3 * 100)%Q 1 [lit "B"] None 2 2).
Proof.
  intros Hfile Hcsv HA HB st0 st found pending failed cache mapping.
  pose proof (scenario_events env file Hfile Hcsv HA HB) as Hev. cbv zeta in Hev.
  destruct (scenario_core env file Hfile Hcsv HA HB) as (Hres & Hc & Ha & Hs & He).
  fold st in Hev, Hc, Ha, Hs, He. fold st0 in Hev.
  split; [done|]. rewrite Ha, Hc, Hs, He.
  do 8 (split; [vm_compute; reflexivity|]).
  split; [|split; [|split]].
  - eexists. split; [vm_compute; reflexivity|].
    repeat split; vm_compute; congruence.
  - exact Hev.
  - intros Hio. rewrite Hev. unfold checkpoint, results_log. rewrite !Hio.
    f_equal; vm_compute; reflexivity.
  - rewrite (print_final_summary_core st
               (mkState cache [found; failed; found] (mkStats 3 3 2 1 2 2) FileAbsent
                        [lit "A"; lit "B"] [])).
    + vm_compute. reflexivity.
    + unfold core. by rewrite Hc, Ha, Hs, He.
Qed.

Lemma end_to_end_scenario_witness :
  let env := mkEnv (λ _ a, if decide (a = lit "A") then Located 1%Q 2%Q else NoMatch)
                   (λ _, IoOk)
                   (Ret [Some (PyStr (lit "A, city")); Some (PyStr (lit "Point 192 - B"));
                         Some (PyStr (lit "A, city"))])
                   (λ _, lit "f") in
  s_ext_calls (fst (viewmodel.run env (mkConfig 2) (viewmodel.new_state FileAbsent)))
  = [lit "A"; lit "B"] ∧
  s_events (fst (viewmodel.run env (mkConfig 2) (viewmodel.new_state FileAbsent)))
  = [WroteCsv [mkAddress (lit "A, city") (lit "A") (Some 1%Q) (Some 2%Q);
               mkAddress (lit "Point 192 - B") (lit "B") None None;
               mkAddress (lit "A, city") (lit "A") None None];
     WroteJson {[lit "A, city" := Some (lit "f,f")]};
     WrotePythonDict {[lit "A, city" := Some (lit "f,f")]} 3 (1 / 2 * 100)%Q;
     WroteCache (<[lit "A" := (Some 1%Q, Some 2%Q)]> {[lit "B" := (None, None)]});
     Slept 2;
     WroteCsv [mkAddress (lit "A, city") (lit "A") (Some 1%Q) (Some 2%Q);
               mkAddress (lit "Point 192 - B") (lit "B") None None;
               mkAddress (lit "A, city") (lit "A") (Some 1%Q) (Some 2%Q)];
     WroteJson {[lit "A, city" := Some (lit "f,f")]};
     WrotePythonDict {[lit "A, city" := Some (lit "f,f")]} 3 (2 / 3 * 100)%Q;
     WroteCache (<[lit "A" := (Some 1%Q, Some 2%Q)]> {[lit "B" := (None, None)]})].
Proof.
  intros env.
  assert (holds_no_entry FileAbsent) as Hfile by exact I.
  assert (csv_cells env =
          Ret [Some (PyStr (lit "A, city")); Some (PyStr (lit "Point 192 - B"));
               Some (PyStr (lit "A, city"))]) as Hcsv by reflexivity.
  assert (∀ n, geocoder env n (lit "A") = Located 1%Q 2%Q) as HA by (intros n; reflexivity).
  assert (∀ n, geocoder env n (lit "B") = NoMatch) as HB by (intros n; reflexivity).
  destruct (end_to_end_scenario env FileAbsent Hfile Hcsv HA HB)
    as (_ & _ & _ & _ & Hcalls & _ & _ & _ & _ & _ & _ & Hlog & _).
  split; [exact Hcalls|].
  etrans; [apply Hlog; intros n; reflexivity|]. vm_compute. reflexivity.
Defined.

(** * Further properties of the code *)

Set Warnings "-clear-no-such-hyp".

(** ** The cache *)

(** X1.  What [set] stores under a key, [get] gives back; the other keys are
    as they were; and [size] grows by one exactly when the key is new. *)
Theorem cache_set_then_get key value st :
  let st' := fst (services.cache_set key value st) in
  snd (services.cache_get key st') = Ret (Some value) ∧
  (∀ key', key' ≠ key →
     snd (services.cache_get key' st') = snd (services.cache_get key' st)) ∧
  snd (services.cache_size st') =
    Ret (match s_cache st !! key with
         | Some _ => Z.of_nat (size (s_cache st))
         | None => Z.of_nat (size (s_cache st)) + 1
         end)%Z.
Proof.
  unfold services.cache_set, services.cache_get, services.cache_size,
    bind, gets, ret, modify; simpl.
  split; [by rewrite lookup_insert_eq|]. split.
  - intros key' Hne. by rewrite lookup_insert_ne.
  - rewrite map_size_insert. destruct (s_cache st !! key); simpl; f_equal; lia.
Qed.

Lemma cache_set_then_get_witness :
  let st := viewmodel.new_state FileAbsent in
  snd (services.cache_get (lit "B")
         (fst (services.cache_set (lit "A") failed_result st)))
  = snd (services.cache_get (lit "B") st).
Proof.
  intros st.
  apply (cache_set_then_get (lit "A") failed_result st). vm_compute. discriminate.
Defined.

Section cache_file_facts.
Import services.

Lemma save_cache_file env st :
  s_cache_file (fst (save_cache env st)) =
  match io env (length (s_events st)) with
  | IoOk => FileHolds (s_cache st)
  | IoFailsEarly => s_cache_file st
  | IoFailsLate => FileCorrupt
  end.
Proof.
  unfold save_cache, try_except, bind, gets, pickle_dump; simpl.
  by destruct (io env _).
Qed.

Lemma load_cache_result env st :
  s_cache (fst (load_cache env st)) =
  match s_cache_file st, io env (length (s_events st)) with
  | FileHolds m, IoOk => m
  | _, _ => ∅
  end.
Proof.
  unfold load_cache, os_path_exists, bind, gets, ret, try_except, pickle_load, modify.
  destruct st as [cache addresses stats file calls events]; simpl.
  destruct file; simpl; [done|..]; by destruct (io env _).
Qed.

End cache_file_facts.

(** X2.  A cache saved without a write error is what a later [load_cache]
    reads back, in any process that finds the file and reads it without
    error. *)
Theorem save_cache_then_load_cache env st :
  io env (length (s_events st)) = IoOk →
  let st1 := fst (services.save_cache env st) in
  s_cache_file st1 = FileHolds (s_cache st) ∧
  ∀ env' st2,
    s_cache_file st2 = s_cache_file st1 →
    io env' (length (s_events st2)) = IoOk →
    services.load_cache env' st2
    = (fst (services.load_cache env' st2), Ret (s_cache st)) ∧
    s_cache (fst (services.load_cache env' st2)) = s_cache st.
Proof.
  intros Hio st1.
  assert (s_cache_file st1 = FileHolds (s_cache st)) as Hfile.
  { unfold st1. by rewrite save_cache_file, Hio. }
  split; [done|]. intros env' st2 Hsame Hio'.
  assert (s_cache (fst (services.load_cache env' st2)) = s_cache st) as Hc.
  { by rewrite load_cache_result, Hsame, Hfile, Hio'. }
  split; [|done].
  destruct (load_cache_frame env' st2) as [Hr _].
  destruct (services.load_cache env' st2) as [st3 r]; simpl in *. by rewrite Hr, Hc.
Qed.

Lemma save_cache_then_load_cache_witness :
  let env := mkEnv (λ _ _, NoMatch) (λ _, IoOk) (Ret []) (λ _, []) in
  let st := mkState {[ lit "A" := failed_result ]} [] new_stats FileAbsent [] [] in
  s_cache_file (fst (services.save_cache env st)) = FileHolds (s_cache st).
Proof.
  intros env st.
  apply (save_cache_then_load_cache env st).
  reflexivity.
Defined.

(** X3.  The cache file is written in place: a write that fails before the
    file is opened leaves the file as it was, but one that fails after
    leaves a file that the next [load_cache] reads as an empty cache, while
    the cache in memory is untouched. *)
Theorem save_cache_is_not_atomic env st :
  (io env (length (s_events st)) = IoFailsEarly →
   s_cache_file (fst (services.save_cache env st)) = s_cache_file st) ∧
  (io env (length (s_events st)) = IoFailsLate →
   s_cache (fst (services.save_cache env st)) = s_cache st ∧
   ∀ env' st2,
     s_cache_file st2 = s_cache_file (fst (services.save_cache env st)) →
     s_cache (fst (services.load_cache env' st2)) = ∅).
Proof.
  split; intros Hio.
  - by rewrite save_cache_file, Hio.
  - split.
    + destruct (save_cache_silent env st) as [Hcore _].
      by apply core_fields in Hcore as (? & _).
    + intros env' st2 Hsame.
      rewrite load_cache_result, Hsame, save_cache_file, Hio. done.
Qed.

Lemma save_cache_is_not_atomic_witness :
  let env := mkEnv (λ _ _, NoMatch) (λ _, IoFailsLate) (Ret []) (λ _, []) in
  let st := mkState {[ lit "A" := failed_result ]} [] new_stats
                    (FileHolds {[ lit "B" := failed_result ]}) [] [] in
  s_cache (fst (services.load_cache env (fst (services.save_cache env st)))) = ∅.
Proof.
  intros env st.
  apply (save_cache_is_not_atomic env st); reflexivity.
Defined.

(** ** One lookup *)

Section lookup_facts.
Import services.

(** What a [geocode_address] leaves alone. *)
Lemma geocode_address_frame env key st :
  s_addresses (fst (geocode_address env key st)) = s_addresses st ∧
  s_stats (fst (geocode_address env key st)) = s_stats st ∧
  s_cache_file (fst (geocode_address env key st)) = s_cache_file st ∧
  s_events (fst (geocode_address env key st)) = s_events st.
Proof.
  destruct (s_cache st !! key) as [v|] eqn:Hk.
  - by rewrite (geocode_address_hit env _ _ _ Hk).
  - by rewrite (geocode_address_miss env _ _ Hk).
Qed.

(** It returns normally, with the outcome the cache then holds for the key. *)
Lemma geocode_address_returns env key st :
  ∃ o, snd (geocode_address env key st) = Ret o ∧
       s_cache (fst (geocode_address env key st)) !! key = Some o.
Proof.
  destruct (s_cache st !! key) as [v|] eqn:Hk.
  - rewrite (geocode_address_hit env _ _ _ Hk); simpl. eauto.
  - rewrite (geocode_address_miss env _ _ Hk); simpl.
    eexists. split; [done|]. apply lookup_insert_eq.
Qed.

Lemma geocode_address_grows env key st :
  s_cache st ⊆ s_cache (fst (geocode_address env key st)) ∧
  dom (s_cache (fst (geocode_address env key st))) = {[key]} ∪ dom (s_cache st).
Proof.
  destruct (s_cache st !! key) as [v|] eqn:Hk.
  - rewrite (geocode_address_hit env _ _ _ Hk); simpl. split; [done|].
    apply (elem_of_dom_2 (D := gset str)) in Hk.
    symmetry. by apply subseteq_union_1_L, singleton_subseteq_l.
  - rewrite (geocode_address_miss env _ _ Hk); simpl.
    split; [by apply insert_subseteq|apply dom_insert_L].
Qed.

End lookup_facts.

(** X4.  A [geocode_address] makes at most one external call, only when the
    key is not cached, and for that key; it adds the key to the cache and
    changes no other entry; it touches neither the addresses, the
    statistics, the cache file nor any other file. *)
Theorem geocode_address_effect env key st :
  let st' := fst (services.geocode_address env key st) in
  s_ext_calls st' =
    s_ext_calls st ++ (match s_cache st !! key with Some _ => [] | None => [key] end) ∧
  s_cache st ⊆ s_cache st' ∧
  dom (s_cache st') = {[key]} ∪ dom (s_cache st) ∧
  s_addresses st' = s_addresses st ∧ s_stats st' = s_stats st ∧
  s_cache_file st' = s_cache_file st ∧ s_events st' = s_events st.
Proof.
  intros st'. split; [apply geocode_address_calls|].
  destruct (geocode_address_grows env key st) as [Hsub Hdom].
  split; [done|]. split; [done|]. apply geocode_address_frame.
Qed.

(** X5.  Asking again for the same key, straight after any
    [geocode_address], gives the same outcome and changes nothing: the
    second call is always a cache hit. *)
Theorem geocode_address_twice env key st :
  let st1 := fst (services.geocode_address env key st) in
  ∃ o, services.geocode_address env key st = (st1, Ret o) ∧
       services.geocode_address env key st1 = (st1, Ret o).
Proof.
  intros st1. destruct (geocode_address_returns env key st) as (o & Hr & Hc).
  exists o. split.
  - unfold st1. destruct (services.geocode_address env key st); simpl in *. by subst.
  - by apply geocode_address_hit.
Qed.

(** X6.  If every outcome in the cache is whole (both coordinates or
    neither), so is the outcome [geocode_address] returns and so is every
    outcome in the cache afterwards. *)
Theorem geocode_address_whole env key st :
  (∀ k o, s_cache st !! k = Some o → whole o) →
  (∀ o, snd (services.geocode_address env key st) = Ret o → whole o) ∧
  (∀ k o, s_cache (fst (services.geocode_address env key st)) !! k = Some o → whole o).
Proof.
  intros Hwhole. destruct (s_cache st !! key) as [v|] eqn:Hk.
  - rewrite (geocode_address_hit env _ _ _ Hk); simpl. split; [|done].
    intros o [= <-]. eauto.
  - rewrite (geocode_address_miss env _ _ Hk); simpl.
    assert (whole (outcome_of (geocoder env (length (s_ext_calls st)) key))) as Ho.
    { by destruct (geocoder env _ key). }
    split; [by intros o [= <-]|].
    intros k o. rewrite lookup_insert. case_decide; [by intros [= <-]|eauto].
Qed.

Lemma geocode_address_whole_witness :
  let env := mkEnv (λ _ _, Located 1%Q 2%Q) (λ _, IoOk) (Ret []) (λ _, []) in
  let st := viewmodel.new_state FileAbsent in
  snd (services.geocode_address env (lit "A") st) = Ret (Some 1%Q, Some 2%Q) ∧
  whole (Some 1%Q, Some 2%Q).
Proof.
  intros env st. split; [reflexivity|].
  assert (∀ k o, s_cache st !! k = Some o → whole o) as Hempty.
  { intros k o Hk. vm_compute in Hk. discriminate Hk. }
  apply (proj1 (geocode_address_whole env (lit "A") st Hempty)).
  reflexivity.
Defined.

(** ** The normaliser, further *)

Section normaliser_shape.
Import services.

Lemma strip_with_ends f s :
  (∀ c, head (strip_with f s) = Some c → f c = false) ∧
  (∀ c, last (strip_with f s) = Some c → f c = false).
Proof.
  unfold strip_with. split; intros c Hc.
  - pose proof (lstrip_with_head f (rstrip_with f s)) as H. by rewrite Hc in H.
  - pose proof (lstrip_with_clean_end f _ (rstrip_with_clean_end f s)) as H.
    unfold clean_end in H. by rewrite Hc in H.
Qed.

Lemma strip_with_id f s :
  (∀ c, head s = Some c → f c = false) →
  (∀ c, last s = Some c → f c = false) →
  strip_with f s = s.
Proof.
  intros Hh Hl. unfold strip_with. rewrite rstrip_with_id.
  - apply lstrip_with_id.
    match goal with |- match ?x with _ => _ end => destruct x as [c|] eqn:E end;
      [exact (Hh c E)|done].
  - unfold clean_end.
    match goal with |- match ?x with _ => _ end => destruct x as [c|] eqn:E end;
      [exact (Hl c E)|done].
Qed.

Lemma residue_length a : length (residue (PyStr a)) ≤ length a.
Proof.
  unfold residue. etrans; [apply replace_length_le|apply replace_length_le].
Qed.

Lemma clean_address_ends x :
  (∀ c, head (clean_address x) = Some c → isspace c = false) ∧
  (∀ c, last (clean_address x) = Some c → isspace c = false).
Proof.
  pose proof (strip_with_ends isspace (clean_address x)) as H.
  fold (strip (clean_address x)) in H. by rewrite clean_address_stripped in H.
Qed.

End normaliser_shape.

(** X7.  A cleaned address holds no comma, neither starts nor ends with a
    whitespace character, and is no longer than the text it was made from
    (it is empty for a value that is not a string). *)
Theorem clean_address_shape (x : pyval) :
  let y := services.clean_address x in
  (services.comma ∉ y) ∧
  (∀ c, head y = Some c → isspace c = false) ∧
  (∀ c, last y = Some c → isspace c = false) ∧
  match x with
  | PyStr a => length y ≤ length a
  | _ => y = []
  end.
Proof.
  intros y. split; [apply clean_address_no_comma|].
  destruct (clean_address_ends x) as [Hh Hl]. split; [done|]. split; [done|].
  destruct x as [a| | |]; try done.
  etrans; [apply infix_of_length, (clean_address_infix_residue (PyStr a))|].
  apply residue_length.
Qed.

(** X8.  The texts [clean_address] leaves unchanged are exactly those with
    no marker, no comma and no whitespace at either end. *)
Theorem clean_address_fixed_points (y : str) :
  services.clean_address (PyStr y) = y ↔
  marker_free y = true ∧ (services.comma ∉ y) ∧
  (∀ c, head y = Some c → isspace c = false) ∧
  (∀ c, last y = Some c → isspace c = false).
Proof.
  split.
  - intros Hy.
    pose proof (clean_address_no_comma (PyStr y)) as Hc.
    destruct (clean_address_ends (PyStr y)) as [Hh Hl].
    rewrite Hy in Hc, Hh, Hl. split; [|done].
    assert (services.clean_address (PyStr (services.clean_address (PyStr y)))
            = services.clean_address (PyStr y)) as Hid by (by rewrite !Hy).
    apply clean_address_idempotent_iff in Hid. by rewrite Hy in Hid.
  - intros (Hm & Hc & Hh & Hl). apply clean_address_fixed; [done..|].
    by apply strip_with_id.
Qed.

(** ** The statistics, further *)

Lemma truediv_unit a b q :
  (0 ≤ a ≤ b)%Z → truediv a b = Ret q →
  (0 <= q)%Q ∧ (q <= 1)%Q ∧ (a = b → (q == 1)%Q) ∧ (a = 0%Z → (q == 0)%Q).
Proof.
  intros [Ha Hab]. unfold truediv.
  destruct (Z.eqb_spec b 0) as [|Hb]; [done|]. intros [= <-].
  destruct b as [|b|b]; try lia.
  destruct a as [|a|a]; try lia; unfold Qle, Qeq; simpl; repeat split; try lia;
    intros; try lia;
    match goal with H : Z.pos _ = Z.pos _ |- _ => injection H as -> end; lia.
Qed.

Lemma rounded_percentage (fl : Q → Q) q :
  (∀ x y, (x <= y)%Q → (fl x <= fl y)%Q) →
  (fl 0 == 0)%Q → (fl 1 == 1)%Q → (fl 100 == 100)%Q →
  (0 <= q)%Q → (q <= 1)%Q →
  (0 <= fl (fl q * 100))%Q ∧ (fl (fl q * 100) <= 100)%Q ∧
  ((q == 1)%Q → (fl (fl q * 100) == 100)%Q) ∧
  ((q == 0)%Q → (fl (fl q * 100) == 0)%Q).
Proof.
  intros Hmono H0 H1 H100 Hq0 Hq1.
  assert (∀ x y : Q, (x == y)%Q → (x <= y)%Q) as Hle.
  { intros x y H. apply Qle_lteq. by right. }
  assert (∀ x y, (x == y)%Q → (fl x == fl y)%Q) as Heq.
  { intros x y Hxy. apply Qle_antisym; apply Hmono, Hle; [done|by apply Qeq_sym]. }
  assert (0 <= fl q)%Q as Hf0.
  { apply (Qle_trans _ (fl 0%Q)); [by apply Hle, Qeq_sym|by apply Hmono]. }
  assert (fl q <= 1)%Q as Hf1.
  { apply (Qle_trans _ (fl 1%Q)); [by apply Hmono|by apply Hle]. }
  assert (0 <= fl q * 100)%Q as Hm0 by (apply Qmult_le_0_compat; [done|by compute]).
  assert (fl q * 100 <= 100)%Q as Hm1.
  { apply (Qle_trans _ (1 * 100)%Q); [|by compute].
    apply Qmult_le_compat_r; [done|by compute]. }
  split; [apply (Qle_trans _ (fl 0%Q)); [by apply Hle, Qeq_sym|by apply Hmono]|].
  split; [apply (Qle_trans _ (fl 100%Q)); [by apply Hmono|by apply Hle]|].
  split.
  - intros Hq. apply (Qeq_trans _ (fl 100%Q)); [|done]. apply Heq.
    apply (Qeq_trans _ (1 * 100)%Q); [|by compute].
    apply Qmult_comp; [|reflexivity]. apply (Qeq_trans _ (fl 1%Q)); [by apply Heq|done].
  - intros Hq. apply (Qeq_trans _ (fl 0%Q)); [|done]. apply Heq.
    apply (Qeq_trans _ (0 * 100)%Q); [|by compute].
    apply Qmult_comp; [|reflexivity]. apply (Qeq_trans _ (fl 0%Q)); [by apply Heq|done].
Qed.

(** X9.  For counters in order, 0 <= successful <= processed <= total, both
    percentages lie between 0 and 100; the progress is 0 when nothing is
    processed and 100 when every address is; the success rate is 100 when
    every processed address was geocoded.  None of this depends on the
    quotients being exact: it holds again when the division and the
    multiplication by 100 are each followed by a rounding, for every
    rounding that is monotone and leaves 0, 1 and 100 as they are, as the
    rounding of floats to the nearest does. *)
Theorem percentages_bounded (stats : ProcessingStats) :
  (0 ≤ successful_geocodes stats ≤ processed_addresses stats)%Z →
  (processed_addresses stats ≤ total_addresses stats)%Z →
  (∃ progress rate,
     progress_percentage stats = Ret progress ∧
     success_rate stats = Ret rate ∧
     (0 <= progress)%Q ∧ (progress <= 100)%Q ∧
     (0 <= rate)%Q ∧ (rate <= 100)%Q ∧
     (processed_addresses stats = 0%Z → (progress == 0)%Q) ∧
     ((0 < total_addresses stats)%Z →
      processed_addresses stats = total_addresses stats → (progress == 100)%Q) ∧
     ((0 < processed_addresses stats)%Z →
      successful_geocodes stats = processed_addresses stats → (rate == 100)%Q)) ∧
  (∀ fl : Q → Q,
     (∀ x y, (x <= y)%Q → (fl x <= fl y)%Q) →
     (fl 0 == 0)%Q → (fl 1 == 1)%Q → (fl 100 == 100)%Q →
     (∀ q, truediv (processed_addresses stats) (total_addresses stats) = Ret q →
        (0 <= fl (fl q * 100))%Q ∧ (fl (fl q * 100) <= 100)%Q ∧
        (processed_addresses stats = total_addresses stats →
         (fl (fl q * 100) == 100)%Q) ∧
        (processed_addresses stats = 0%Z → (fl (fl q * 100) == 0)%Q)) ∧
     (∀ q, truediv (successful_geocodes stats) (processed_addresses stats) = Ret q →
        (0 <= fl (fl q * 100))%Q ∧ (fl (fl q * 100) <= 100)%Q ∧
        (successful_geocodes stats = processed_addresses stats →
         (fl (fl q * 100) == 100)%Q) ∧
        (successful_geocodes stats = 0%Z → (fl (fl q * 100) == 0)%Q))).
Proof.
  intros Hsp Hpt. split.
  - destruct stats as [t p s f b tb]; simpl in *. destruct Hsp as [Hs Hsp].
    unfold progress_percentage, success_rate, truediv; simpl.
    destruct t as [|t|t], p as [|p|p], s as [|s|s]; try lia; simpl;
      do 2 eexists; (split; [reflexivity|]); (split; [reflexivity|]);
      unfold Qle, Qeq; simpl; repeat split; try lia; intros; try lia;
      match goal with H : Z.pos _ = Z.pos _ |- _ => injection H as -> end; lia.
  - intros fl Hmono H0 H1 H100.
    assert (∀ a b q, (0 ≤ a ≤ b)%Z → truediv a b = Ret q →
              (0 <= fl (fl q * 100))%Q ∧ (fl (fl q * 100) <= 100)%Q ∧
              (a = b → (fl (fl q * 100) == 100)%Q) ∧
              (a = 0%Z → (fl (fl q * 100) == 0)%Q)) as Hboth.
    { intros a b q Hab Hq.
      destruct (truediv_unit a b q Hab Hq) as (Hq0 & Hq1 & Hone & Hzero).
      destruct (rounded_percentage fl q Hmono H0 H1 H100 Hq0 Hq1)
        as (Hlow & Hhigh & Hr1 & Hr0).
      split; [done|]. split; [done|]. split; intros H; [apply Hr1|apply Hr0]; auto. }
    split; intros q Hq; apply Hboth; [lia|done|lia|done].
Qed.

Lemma percentages_bounded_witness :
  ∃ progress rate,
    progress_percentage (mkStats 3 3 2 1 2 2) = Ret progress ∧
    success_rate (mkStats 3 3 2 1 2 2) = Ret rate ∧
    (0 <= progress)%Q ∧ (progress <= 100)%Q ∧
    (0 <= rate)%Q ∧ (rate <= 100)%Q ∧
    (3%Z = 0%Z → (progress == 0)%Q) ∧
    ((0 < 3)%Z → 3%Z = 3%Z → (progress == 100)%Q) ∧
    ((0 < 3)%Z → 2%Z = 3%Z → (rate == 100)%Q).
Proof.
  apply (percentages_bounded (mkStats 3 3 2 1 2 2)); simpl; lia.
Defined.

(** ** The legacy script *)

Section legacy_facts.
Import services.

Lemma get_lat_long_cached_hit env address v st :
  s_cache st !! address = Some v →
  main_legacy.get_lat_long_cached env address st = (st, Ret v).
Proof.
  intros Hv. unfold main_legacy.get_lat_long_cached, bind, gets, ret; simpl.
  by rewrite Hv.
Qed.

(** On a miss the legacy function stores the outcome unless the geocoder
    found no match. *)
Lemma get_lat_long_cached_miss env address st :
  s_cache st !! address = None →
  let r := geocoder env (length (s_ext_calls st)) address in
  main_legacy.get_lat_long_cached env address st =
    (match r with
     | NoMatch => log_ext_call address st
     | _ => set_cache (<[address := outcome_of r]>) (log_ext_call address st)
     end, Ret (outcome_of r)).
Proof.
  intros Hv. unfold main_legacy.get_lat_long_cached, bind, gets, ret, try_except,
    call_geocode, cache_set, modify; simpl.
  rewrite Hv. by destruct (geocoder env _ address).
Qed.

End legacy_facts.

(** X10.  The legacy [get_lat_long_cached] and [geocode_address] return the
    same outcome and make the same external calls.  They leave the very same
    state, except when the key is not cached and the geocoder finds no
    match: then the legacy function leaves the cache as it was, where the
    service stores the failed outcome. *)
Theorem get_lat_long_cached_vs_geocode_address env address st :
  let legacy := main_legacy.get_lat_long_cached env address st in
  let service := services.geocode_address env address st in
  snd legacy = snd service ∧
  s_ext_calls (fst legacy) = s_ext_calls (fst service) ∧
  (s_cache st !! address = None →
   geocoder env (length (s_ext_calls st)) address = NoMatch →
   s_cache (fst legacy) = s_cache st ∧
   s_cache (fst service) = <[address := failed_result]> (s_cache st)) ∧
  (¬ (s_cache st !! address = None ∧
      geocoder env (length (s_ext_calls st)) address = NoMatch) →
   legacy = service).
Proof.
  intros legacy service. unfold legacy, service.
  destruct (s_cache st !! address) as [v|] eqn:Hk.
  - rewrite (get_lat_long_cached_hit env _ _ _ Hk), (geocode_address_hit env _ _ _ Hk).
    repeat split; done.
  - rewrite (get_lat_long_cached_miss env _ _ Hk), (geocode_address_miss env _ _ Hk).
    destruct (geocoder env _ address) eqn:Hr; simpl; repeat split; try done.
    intros []. done.
Qed.

Lemma get_lat_long_cached_vs_geocode_address_witness :
  let env := mkEnv (λ _ _, NoMatch) (λ _, IoOk) (Ret []) (λ _, []) in
  let st := viewmodel.new_state FileAbsent in
  s_cache (fst (main_legacy.get_lat_long_cached env (lit "B") st)) = s_cache st ∧
  s_cache (fst (services.geocode_address env (lit "B") st))
  = <[lit "B" := failed_result]> (s_cache st).
Proof.
  intros env st.
  apply (get_lat_long_cached_vs_geocode_address env (lit "B") st); reflexivity.
Defined.

(** X11.  The legacy function does not remember a lookup that found no
    match: asked twice for an address the geocoder does not find, it calls
    the geocoder twice. *)
Theorem get_lat_long_cached_retries_no_match env address st :
  s_cache st !! address = None →
  (∀ n, geocoder env n address = NoMatch) →
  let st1 := fst (main_legacy.get_lat_long_cached env address st) in
  let st2 := fst (main_legacy.get_lat_long_cached env address st1) in
  s_ext_calls st2 = s_ext_calls st ++ [address; address] ∧
  s_cache st2 = s_cache st.
Proof.
  intros Hk Hno st1 st2. unfold st2, st1.
  rewrite (get_lat_long_cached_miss env _ _ Hk), Hno; simpl.
  rewrite get_lat_long_cached_miss by done. rewrite Hno; simpl.
  by rewrite <- (assoc_L (++)).
Qed.

Lemma get_lat_long_cached_retries_no_match_witness :
  let env := mkEnv (λ _ _, NoMatch) (λ _, IoOk) (Ret []) (λ _, []) in
  let st := viewmodel.new_state FileAbsent in
  let st1 := fst (main_legacy.get_lat_long_cached env (lit "B") st) in
  let st2 := fst (main_legacy.get_lat_long_cached env (lit "B") st1) in
  s_ext_calls st2 = s_ext_calls st ++ [lit "B"; lit "B"] ∧ s_cache st2 = s_cache st.
Proof.
  intros env st.
  apply (get_lat_long_cached_retries_no_match env (lit "B") st).
  - reflexivity.
  - intros n. reflexivity.
Defined.

(** X12.  The legacy [load_cache] returns the mapping that
    [CacheService.load_cache] leaves in memory, in every world.  The legacy
    [save_cache] does to the file what [CacheService.save_cache] does, but
    raises when the write fails, where the service returns normally. *)
Theorem legacy_cache_file_functions env st :
  snd (main_legacy.load_cache env st)
  = Ret (s_cache (fst (services.load_cache env st))) ∧
  s_cache_file (fst (main_legacy.save_cache env (s_cache st) st))
  = s_cache_file (fst (services.save_cache env st)) ∧
  (io env (length (s_events st)) = IoOk →
   snd (main_legacy.save_cache env (s_cache st) st) = Ret tt) ∧
  (io env (length (s_events st)) ≠ IoOk →
   snd (main_legacy.save_cache env (s_cache st) st) = Raise OSError ∧
   snd (services.save_cache env st) = Ret tt).
Proof.
  split; [|split; [|split]].
  - rewrite load_cache_result.
    unfold main_legacy.load_cache, services.os_path_exists, bind, gets, ret,
      try_except, services.pickle_load.
    destruct st as [cache addresses stats file calls events]; simpl.
    destruct file; simpl; [done|..]; by destruct (io env _).
  - rewrite save_cache_file. unfold main_legacy.save_cache, services.pickle_dump.
    by destruct (io env _).
  - intros Hio. unfold main_legacy.save_cache, services.pickle_dump. by rewrite Hio.
  - intros Hio. split; [|apply save_cache_silent].
    unfold main_legacy.save_cache, services.pickle_dump.
    by destruct (io env _).
Qed.

Lemma legacy_cache_file_functions_witness :
  let env := mkEnv (λ _ _, NoMatch) (λ _, IoFailsEarly) (Ret []) (λ _, []) in
  let st := viewmodel.new_state FileAbsent in
  snd (main_legacy.save_cache env (s_cache st) st) = Raise OSError ∧
  snd (services.save_cache env st) = Ret tt.
Proof.
  intros env st.
  apply (legacy_cache_file_functions env st). vm_compute. discriminate.
Defined.

(** ** utils.py *)

(** X13.  [is_valid_address] rejects every value that is not a string and
    every string with three characters or fewer once stripped; whitespace
    around the text does not count; and a cleaned address is valid exactly
    when it has more than three characters. *)
Theorem is_valid_address_spec (x : pyval) :
  (utils.is_valid_address x = true ↔
   ∃ s, x = PyStr s ∧ 3 < length (strip s)) ∧
  (∀ s, utils.is_valid_address (PyStr (strip s)) = utils.is_valid_address (PyStr s)) ∧
  utils.is_valid_address (PyStr (services.clean_address x))
  = bool_decide (3 < length (services.clean_address x)).
Proof.
  assert (∀ s, utils.is_valid_address (PyStr s) = bool_decide (3 < length (strip s)))
    as Hstr.
  { intros s. unfold utils.is_valid_address; simpl.
    destruct s as [|c s]; simpl.
    - by vm_compute.
    - destruct (Nat.ltb_spec 3 (length (strip (c :: s))));
        [by rewrite bool_decide_eq_true_2|by rewrite bool_decide_eq_false_2; [|lia]]. }
  split; [|split].
  - destruct x as [s| | |]; try (split; [done|by intros (s & [=] & _)]).
    + rewrite Hstr, bool_decide_eq_true. split; [eauto|by intros (s' & [= <-] & ?)].
    + unfold utils.is_valid_address; simpl. destruct (n =? 0)%Z; simpl;
        (split; [done|by intros (s & [=] & _)]).
  - intros s. rewrite !Hstr. unfold strip. by rewrite strip_with_idemp.
  - rewrite Hstr. by rewrite clean_address_stripped.
Qed.

(** ** Loading the addresses *)

Lemma batches_cover (n bs : Z) :
  (0 < bs)%Z → (0 ≤ n)%Z →
  let batches := ((n + bs - 1) / bs)%Z in
  (0 ≤ batches ∧ (batches - 1) * bs < n ∧ n ≤ batches * bs)%Z.
Proof.
  intros Hbs Hn batches.
  pose proof (Z.mul_div_le (n + bs - 1) bs Hbs) as H1.
  pose proof (Z.mul_succ_div_gt (n + bs - 1) bs Hbs) as H2.
  fold batches in H1, H2. nia.
Qed.

(** X14.  When the table is read, every row has a cell in column
    'Shipping Address' and the batch size is not 0, [load_addresses] returns
    [True]; the addresses are one row per cell, in order, with the quotes
    around the cell stripped, the cleaned form computed and no coordinates;
    the total is their number; the cache, the files and the counters of work
    done are as they were.  With a positive batch size the number of batches
    is the least that covers all rows. *)
Theorem load_addresses_success env config cells st :
  csv_cells env = Ret (Some <$> cells) →
  batch_size config ≠ 0%Z →
  let n := Z.of_nat (length cells) in
  let batches := ((n + batch_size config - 1) / batch_size config)%Z in
  viewmodel.load_addresses env config st = (loaded cells batches st, Ret true) ∧
  ((0 < batch_size config)%Z →
   (0 ≤ batches ∧ (batches - 1) * batch_size config < n ∧ n ≤ batches * batch_size config)%Z).
Proof.
  intros Hcsv Hbs n batches. split.
  - rewrite (load_addresses_run env config cells st Hcsv).
    by destruct (Z.eqb_spec (batch_size config) 0).
  - intros Hpos. apply batches_cover; lia.
Qed.

Lemma load_addresses_success_witness :
  let env := mkEnv (λ _ _, NoMatch) (λ _, IoOk)
                   (Ret [Some (PyStr ([34%N] ++ lit "Point 192 - Giza, Egypt" ++ [34%N]));
                         Some PyNaN])
                   (λ _, []) in
  viewmodel.load_addresses env (mkConfig 1000) (viewmodel.new_state FileAbsent)
  = (mkState ∅ [mkAddress (lit "Point 192 - Giza, Egypt") (lit "Giza") None None;
                mkAddress [] [] None None]
             (mkStats 2 0 0 0 0 1) FileAbsent [] [], Ret true).
Proof.
  intros env.
  destruct (load_addresses_success env (mkConfig 1000)
              [PyStr ([34%N] ++ lit "Point 192 - Giza, Egypt" ++ [34%N]); PyNaN]
              (viewmodel.new_state FileAbsent)) as [Hrun _].
  - reflexivity.
  - simpl. lia.
  - rewrite Hrun. vm_compute. reflexivity.
Defined.

(** X15.  The three ways [load_addresses] returns [False].  When the table
    cannot be read, the whole state is as it was.  When the table is read
    but a row has no cell in column 'Shipping Address' (the table lacks the
    column), the addresses have been replaced by the rows before that one,
    none if it is the first, and the statistics are as they were.  With a
    batch size of 0 and a table that has the column, the addresses and the
    total have been replaced, and the number of batches is the one left from
    before. *)
Theorem load_addresses_failure env config st :
  (∀ e, csv_cells env = Raise e →
        viewmodel.load_addresses env config st = (st, Ret false)) ∧
  (∀ cells rest, csv_cells env = Ret ((Some <$> cells) ++ None :: rest) →
        viewmodel.load_addresses env config st
        = (set_addresses (λ _, address_of_cell <$> cells) st, Ret false)) ∧
  (∀ cells, csv_cells env = Ret (Some <$> cells) → batch_size config = 0%Z →
        viewmodel.load_addresses env config st
        = (loaded cells (total_batches (s_stats st)) st, Ret false)).
Proof.
  split; [|split].
  - intros e Hcsv. unfold viewmodel.load_addresses, services.load_csv.
    rewrite Hcsv. reflexivity.
  - intros cells rest Hcsv. by apply (load_addresses_missing env config cells rest).
  - intros cells Hcsv Hbs. rewrite (load_addresses_run env config cells st Hcsv).
    by rewrite Hbs.
Qed.

Lemma load_addresses_failure_witness :
  let env := mkEnv (λ _ _, NoMatch) (λ _, IoOk) (Ret [None; None]) (λ _, []) in
  let st := mkState ∅ [mkAddress (lit "A, city") (lit "A") (Some 1%Q) (Some 2%Q)]
                    (mkStats 1 1 1 0 1 1) FileAbsent [] [] in
  viewmodel.load_addresses env (mkConfig 1000) st
  = (mkState ∅ [] (mkStats 1 1 1 0 1 1) FileAbsent [] [], Ret false).
Proof.
  intros env st.
  apply (proj1 (proj2 (load_addresses_failure env (mkConfig 1000) st)) [] [None]).
  reflexivity.
Defined.

(** ** Saving the results *)


Section mapping_facts.
Import viewmodel.
Context (fs : coord → str).

Lemma coordinate_map_snoc l a :
  coordinate_map fs (l ++ [a]) =
  if is_geocoded a
  then <[original a := coordinates fs a]> (coordinate_map fs l)
  else coordinate_map fs l.
Proof. unfold coordinate_map. by rewrite foldl_snoc. Qed.

Lemma coordinates_geocoded a :
  is_geocoded a = true →
  ∃ lat lng, latitude a = Some lat ∧ longitude a = Some lng ∧
             coordinates fs a = Some (fs lat ++ lit "," ++ fs lng).
Proof.
  unfold coordinates. intros Hg. rewrite Hg. unfold is_geocoded in Hg.
  destruct (latitude a) as [lat|], (longitude a) as [lng|]; try done. eauto.
Qed.

Lemma coordinate_map_lookup_last l k :
  coordinate_map fs l !! k =
  coordinates fs <$> last (filter (λ a, is_geocoded a = true ∧ original a = k) l).
Proof.
  induction l as [|a l IH] using rev_ind; [done|].
  rewrite coordinate_map_snoc, filter_app.
  destruct (is_geocoded a) eqn:Hg.
  - destruct (decide (original a = k)) as [<-|Hne].
    + rewrite lookup_insert_eq, filter_cons_True by done.
      rewrite filter_nil. by rewrite last_snoc.
    + rewrite lookup_insert_ne by done.
      rewrite filter_cons_False by (intros [? ?]; congruence).
      by rewrite filter_nil, app_nil_r.
  - rewrite filter_cons_False by (intros [? ?]; congruence).
    by rewrite filter_nil, app_nil_r.
Qed.





End mapping_facts.

(** X17.  In the mapping [save_results] writes, the entry of a key is the
    "lat,lng" text of the last geocoded row whose original address is the
    key, and a key has an entry only if there is such a row: rows without
    coordinates are left out, and of rows with the same original address the
    last one wins. *)
Theorem coordinate_map_lookup fs (addresses : list Address) (key : str) :
  viewmodel.coordinate_map fs addresses !! key =
    coordinates fs <$>
      last (filter (λ a, is_geocoded a = true ∧ original a = key) addresses) ∧
  ∀ v, viewmodel.coordinate_map fs addresses !! key = Some v →
       ∃ a lat lng, a ∈ addresses ∧ original a = key ∧
                    latitude a = Some lat ∧ longitude a = Some lng ∧
                    v = Some (fs lat ++ lit "," ++ fs lng).
Proof.
  split; [apply coordinate_map_lookup_last|].
  intros v. rewrite coordinate_map_lookup_last.
  destruct (last _) as [a|] eqn:Hlast; [|done]. intros [= <-].
  apply last_Some_elem_of, list_elem_of_filter in Hlast as [[Hg Hk] Hin].
  destruct (coordinates_geocoded fs a Hg) as (lat & lng & Hlat & Hlng & Hc).
  exists a, lat, lng. by rewrite Hc.
Qed.

Lemma coordinate_map_lookup_witness :
  let rows := [mkAddress (lit "A, city") (lit "A") (Some 1%Q) (Some 2%Q);
               mkAddress (lit "B") (lit "B") None None] in
  ∃ a lat lng, a ∈ rows ∧ original a = lit "A, city" ∧
               latitude a = Some lat ∧ longitude a = Some lng ∧
               Some (lit "f,f") = Some (lit "f" ++ lit "," ++ lit "f").
Proof.
  intros rows.
  apply (coordinate_map_lookup (λ _, lit "f") rows (lit "A, city")).
  vm_compute. reflexivity.
Defined.



(** ** A sequence of lookups *)

Section sequence_facts.
Import services.

Lemma geocode_address_run env key st :
  ∃ st1 o, geocode_address env key st = (st1, Ret o) ∧
           s_cache st1 !! key = Some o ∧
           st1 = fst (geocode_address env key st).
Proof.
  destruct (geocode_address_returns env key st) as (o & Hr & Hc).
  destruct (geocode_address env key st) as [st1 r] eqn:Hg; simpl in *. subst r.
  by exists st1, o.
Qed.

Lemma geocode_address_lookups env key st1 st2 :
  lookups st1 = lookups st2 →
  lookups (fst (geocode_address env key st1)) = lookups (fst (geocode_address env key st2)) ∧
  snd (geocode_address env key st1) = snd (geocode_address env key st2).
Proof.
  unfold lookups. intros [= Hc He].
  destruct (s_cache st1 !! key) as [v|] eqn:Hk.
  - rewrite (geocode_address_hit env _ _ _ Hk).
    rewrite Hc in Hk. rewrite (geocode_address_hit env _ _ _ Hk). simpl.
    by rewrite Hc, He.
  - rewrite (geocode_address_miss env _ _ Hk).
    rewrite Hc in Hk. rewrite (geocode_address_miss env _ _ Hk). simpl.
    by rewrite Hc, He.
Qed.

Lemma geocode_all_nil env st : geocode_all env [] st = (st, Ret tt).
Proof. done. Qed.

Lemma geocode_all_cons env key keys st :
  geocode_all env (key :: keys) st
  = geocode_all env keys (fst (geocode_address env key st)).
Proof.
  destruct (geocode_address_run env key st) as (st1 & o & Hg & _ & ->).
  unfold geocode_all; simpl. unfold bind at 1 2. by rewrite Hg.
Qed.

Lemma geocode_all_returns env keys st : snd (geocode_all env keys st) = Ret tt.
Proof.
  revert st. induction keys as [|key keys IH]; intros st; [done|].
  by rewrite geocode_all_cons.
Qed.

Lemma geocode_all_app env keys1 keys2 st :
  geocode_all env (keys1 ++ keys2) st
  = geocode_all env keys2 (fst (geocode_all env keys1 st)).
Proof.
  revert st. induction keys1 as [|key keys1 IH]; intros st; [done|].
  simpl. by rewrite !geocode_all_cons, IH.
Qed.

Lemma geocode_all_lookups env keys st1 st2 :
  lookups st1 = lookups st2 →
  lookups (fst (geocode_all env keys st1)) = lookups (fst (geocode_all env keys st2)).
Proof.
  revert st1 st2. induction keys as [|key keys IH]; intros st1 st2 H; [done|].
  rewrite !geocode_all_cons. apply IH. by apply geocode_address_lookups.
Qed.

Lemma geocode_all_frame env keys st :
  s_addresses (fst (geocode_all env keys st)) = s_addresses st ∧
  s_stats (fst (geocode_all env keys st)) = s_stats st ∧
  s_cache_file (fst (geocode_all env keys st)) = s_cache_file st ∧
  s_events (fst (geocode_all env keys st)) = s_events st.
Proof.
  revert st. induction keys as [|key keys IH]; intros st; [done|].
  rewrite geocode_all_cons.
  destruct (IH (fst (geocode_address env key st))) as (-> & -> & -> & ->).
  apply geocode_address_frame.
Qed.

Lemma geocode_all_grows env keys st :
  s_cache st ⊆ s_cache (fst (geocode_all env keys st)).
Proof.
  revert st. induction keys as [|key keys IH]; intros st; [done|].
  rewrite geocode_all_cons. etrans; [apply (geocode_address_grows env key st)|apply IH].
Qed.

Lemma geocode_all_cached env keys st key :
  key ∈ keys → is_Some (s_cache (fst (geocode_all env keys st)) !! key).
Proof.
  revert st. induction keys as [|key' keys IH]; intros st; [by intros ?%not_elem_of_nil|].
  rewrite geocode_all_cons. intros [->|Hin]%elem_of_cons; [|by apply IH].
  destruct (geocode_address_run env key' st) as (st1 & o & _ & Hc & <-).
  exists o. eapply lookup_weaken; [exact Hc|apply geocode_all_grows].
Qed.


End sequence_facts.

(** ** A batch *)

Section batch_facts.
Import services viewmodel.

Lemma silent_ret : silent (ret tt).
Proof. intros st. by exists st. Qed.

Lemma silent_save_cache env : silent (save_cache env).
Proof.
  intros st. destruct (save_cache_silent env st) as [Hc Hr].
  destruct (save_cache env st) as [st' r]; simpl in *. subst r. by exists st'.
Qed.

Lemma silent_save_results env : silent (save_results env).
Proof.
  intros st. destruct (save_results_silent env st) as [Hc Hr].
  destruct (save_results env st) as [st' r]; simpl in *. subst r. by exists st'.
Qed.

Lemma silent_sleep seconds : silent (sleep seconds).
Proof. intros st. eexists. split; [reflexivity|done]. Qed.

Lemma silent_bind (m k : M unit) : silent m → silent k → silent (bind m (λ _, k)).
Proof.
  intros Hm Hk st. destruct (Hm st) as (st1 & Hm1 & Hc1).
  destruct (Hk st1) as (st2 & Hk2 & Hc2).
  exists st2. rewrite (bind_run _ _ _ _ _ Hm1). split; [done|congruence].
Qed.

Lemma silent_gets {A} (f : State → A) (k : A → M unit) :
  (∀ a, silent (k a)) → silent (bind (gets f) k).
Proof. intros Hk st. apply (Hk (f st)). Qed.

Lemma silent_print_progress : silent _print_progress.
Proof.
  intros st. exists st. split; [|done].
  unfold _print_progress, bind, gets, lift, ret.
  destruct (progress_percentage_returns (s_stats st)) as [q ->].
  by destruct (success_rate_returns (s_stats st)) as [r ->].
Qed.

(** One turn of the loop of [process_batch]. *)
Lemma process_records_cons env i rest p s st a st1 lat lng st3 :
  s_addresses st !! i = Some a →
  geocode_address env (cleaned a) st = (st1, Ret (lat, lng)) →
  (if ((p + 1) mod 100 =? 0)%Z then save_cache env else ret tt)
    (set_addresses (alter (with_coordinates lat lng) i) st1) = (st3, Ret tt) →
  process_records env (i :: rest) p s st
  = process_records env rest (p + 1)
      (if is_geocoded (with_coordinates lat lng a) then s + 1 else s)%Z st3.
Proof.
  intros Ha Hg Hs. simpl. unfold bind at 1, gets at 1. rewrite Ha.
  unfold bind at 1. rewrite Hg. unfold bind at 1, modify at 1.
  unfold bind at 1. by rewrite Hs.
Qed.

Lemma fill_lookup c a lat lng :
  c !! cleaned a = Some (lat, lng) → fill c a = with_coordinates lat lng a.
Proof. unfold fill, outcome in *. by intros ->. Qed.

Lemma fill_stable c c' a :
  c ⊆ c' → is_Some (c !! cleaned a) → fill c' a = fill c a.
Proof.
  intros Hsub [o Ho]. unfold fill.
  by rewrite Ho, (lookup_weaken _ _ _ _ Ho Hsub).
Qed.

(** The records at a run of consecutive positions are looked up in order;
    each gets the outcome the cache holds for its cleaned form. *)
Lemma process_records_seq env sub :
  ∀ pre post st p s,
    s_addresses st = pre ++ sub ++ post →
    ∃ st',
      process_records env (seq (length pre) (length sub)) p s st
      = (st', Ret ((p + Z.of_nat (length sub))%Z,
                   (s + successful_count (fill (s_cache st') <$> sub))%Z)) ∧
      s_addresses st' = pre ++ (fill (s_cache st') <$> sub) ++ post ∧
      lookups st' = lookups (fst (geocode_all env (cleaned <$> sub) st)) ∧
      s_stats st' = s_stats st.
Proof.
  induction sub as [|a sub IH]; intros pre post st p s Hst.
  { exists st. simpl. unfold ret, successful_count; simpl.
    rewrite !Z.add_0_r. done. }
  destruct (geocode_address_run env (cleaned a) st) as (st1 & [lat lng] & Hg & Hc1 & Hst1).
  destruct (geocode_address_frame env (cleaned a) st) as (Ha1 & Hs1 & _).
  rewrite <- Hst1 in Ha1, Hs1.
  set (a' := with_coordinates lat lng a).
  set (st2 := set_addresses (alter (with_coordinates lat lng) (length pre)) st1).
  assert (s_addresses st2 = (pre ++ [a']) ++ sub ++ post) as Ha2.
  { unfold st2; simpl. rewrite Ha1, Hst.
    rewrite alter_app_r_alt by lia. rewrite Nat.sub_diag. simpl.
    by rewrite <- (assoc_L (++)). }
  assert (∃ st3, (if ((p + 1) mod 100 =? 0)%Z then save_cache env else ret tt) st2
                 = (st3, Ret tt) ∧ core st3 = core st2) as (st3 & Hsave & Hc3).
  { destruct (_ =? _)%Z; [apply silent_save_cache|apply silent_ret]. }
  apply core_fields in Hc3 as (Hc3 & Ha3 & Hs3 & He3).
  destruct (IH (pre ++ [a']) post st3 (p + 1)%Z
              (if is_geocoded a' then s + 1 else s)%Z) as (st' & Hrun & Ha' & Hl' & Hs').
  { by rewrite Ha3. }
  rewrite length_app in Hrun; simpl in Hrun. rewrite Nat.add_1_r in Hrun.
  assert (lookups st' = lookups (fst (geocode_all env (cleaned <$> a :: sub) st))) as Hl.
  { rewrite Hl'. simpl. rewrite geocode_all_cons, <- Hst1.
    apply geocode_all_lookups. unfold lookups. by rewrite Hc3, He3. }
  assert (fill (s_cache st') a = a') as Hfill.
  { apply fill_lookup.
    eapply lookup_weaken; [exact Hc1|].
    injection Hl' as -> _. etrans; [|apply geocode_all_grows]. by rewrite Hc3. }
  exists st'. split; [|split; [|split]].
  - simpl seq. rewrite (process_records_cons env _ _ p s st a st1 lat lng st3); try done.
    + unfold a' in Hrun. rewrite Hrun. f_equal. f_equal. f_equal; [simpl; lia|].
      unfold successful_count. simpl fmap. rewrite Hfill. unfold a'.
      destruct (is_geocoded (with_coordinates lat lng a)) eqn:Hgeo.
      * rewrite filter_cons_True by (by apply Is_true_true_2).
        change (list_fmap _ _ ?f ?l) with (f <$> l).
        rewrite length_cons, Nat2Z.inj_succ. lia.
      * rewrite filter_cons_False by (by apply Is_true_false_2).
        change (list_fmap _ _ ?f ?l) with (f <$> l). lia.
    + rewrite Hst. by apply list_lookup_middle.
  - rewrite Ha'. simpl. rewrite Hfill. by rewrite <- (assoc_L (++)).
  - done.
  - by rewrite Hs', Hs3.
Qed.

End batch_facts.

Section slices_facts.
Import services viewmodel.

Lemma slice_refs_range n start stop :
  (0 ≤ start ≤ stop)%Z → (stop ≤ n)%Z →
  slice_refs n start stop = seq (Z.to_nat start) (Z.to_nat (stop - start)).
Proof.
  intros Hs Hn. unfold slice_refs, slice_bound.
  destruct (Z.ltb_spec start 0), (Z.ltb_spec stop 0); try lia.
  by rewrite !Z.max_r, !Z.min_l by lia.
Qed.

Lemma py_range_nil lo hi : (hi ≤ lo)%Z → py_range lo hi = [].
Proof. intros H. unfold py_range. by replace (Z.to_nat (hi - lo)) with 0 by lia. Qed.

Lemma py_range_cons lo hi :
  (lo < hi)%Z → py_range lo hi = lo :: py_range (lo + 1) hi.
Proof.
  intros H. unfold py_range.
  replace (Z.to_nat (hi - lo)) with (S (Z.to_nat (hi - (lo + 1)))) by lia.
  simpl. f_equal; [lia|].
  rewrite <- fmap_S_seq, <- list_fmap_compose.
  apply list_fmap_ext. intros _ i _. simpl. lia.
Qed.

(** A loop over [range(lo, hi)] whose body returns normally and takes the
    invariant from one number to the next. *)
Lemma for_each_range (I : Z → State → Prop) (body : Z → M unit) lo hi st :
  (lo ≤ hi)%Z → I lo st →
  (∀ b st, (lo ≤ b < hi)%Z → I b st →
           ∃ st', body b st = (st', Ret tt) ∧ I (b + 1)%Z st') →
  ∃ st', for_each (py_range lo hi) body st = (st', Ret tt) ∧ I hi st'.
Proof.
  intros Hle HI Hbody.
  remember (Z.to_nat (hi - lo)) as k eqn:Hk.
  revert lo st Hle HI Hbody Hk. induction k as [|k IH]; intros lo st Hle HI Hbody Hk.
  - assert (lo = hi) as -> by lia. rewrite py_range_nil by lia. by exists st.
  - rewrite py_range_cons by lia. simpl.
    destruct (Hbody lo st) as (st1 & Hrun & HI1); [lia|done|].
    rewrite (bind_run _ _ _ _ _ Hrun).
    apply IH; [lia|done| |lia].
    intros b st2 Hb. apply Hbody. lia.
Qed.

(** [process_batch] on the rows at consecutive positions: each is looked up
    in order and gets the outcome of its cleaned form; the counters grow by
    the number of rows and by the number of them that got coordinates. *)
Lemma process_batch_seq env sub pre post st batch_num :
  s_addresses st = pre ++ sub ++ post →
  ∃ st',
    process_batch env (seq (length pre) (length sub)) batch_num st = (st', Ret tt) ∧
    s_addresses st' = pre ++ (fill (s_cache st') <$> sub) ++ post ∧
    lookups st' = lookups (fst (geocode_all env (cleaned <$> sub) st)) ∧
    s_stats st' =
      (let processed := (processed_addresses (s_stats st) + Z.of_nat (length sub))%Z in
       let successful := (successful_geocodes (s_stats st)
                          + successful_count (fill (s_cache st') <$> sub))%Z in
       mkStats (total_addresses (s_stats st)) processed successful
               (processed - successful) batch_num (total_batches (s_stats st))).
Proof.
  intros Hst.
  destruct (process_records_seq env sub pre post st 0 0 Hst)
    as (st1 & Hrun & Ha & Hl & Hs).
  eexists. split; [|split; [|split]].
  - unfold process_batch. rewrite (bind_run _ _ _ _ _ Hrun). reflexivity.
  - done.
  - done.
  - simpl. by rewrite Hs.
Qed.

End slices_facts.

(** ** The whole run *)

Section run_further.
Import services viewmodel.

Lemma successful_count_app l1 l2 :
  successful_count (l1 ++ l2) = (successful_count l1 + successful_count l2)%Z.
Proof. unfold successful_count. rewrite filter_app, length_app. lia. Qed.

Lemma rows_done_start env st : rows_done env st st 0.
Proof.
  unfold rows_done; simpl. rewrite drop_0. unfold successful_count; simpl.
  repeat split; lia.
Qed.

Lemma rows_done_core env st0 st st' m :
  core st' = core st → rows_done env st0 st m → rows_done env st0 st' m.
Proof.
  intros (Hc & Ha & Hs & He)%core_fields. unfold rows_done, lookups.
  by rewrite Hc, Ha, Hs, He.
Qed.

Lemma process_batch_next env st0 st m m' batch_num :
  rows_done env st0 st m →
  m ≤ m' ≤ length (s_addresses st0) →
  ∃ st',
    process_batch env (seq m (m' - m)) batch_num st = (st', Ret tt) ∧
    rows_done env st0 st' m' ∧
    failed_geocodes (s_stats st')
    = (processed_addresses (s_stats st') - successful_geocodes (s_stats st'))%Z ∧
    current_batch (s_stats st') = batch_num.
Proof.
  intros (Ha & Hl & Ht & Htb & Hp & Hs) [Hm Hm'].
  set (l0 := s_addresses st0) in *.
  set (pre := fill (s_cache st) <$> take m l0).
  set (sub := take (m' - m) (drop m l0)).
  set (post := drop m' l0).
  assert (length pre = m) as Hpre.
  { unfold pre. rewrite length_fmap, length_take_le; lia. }
  assert (length sub = m' - m) as Hsub.
  { unfold sub. rewrite length_take_le; [done|]. rewrite length_drop. lia. }
  assert (take m' l0 = take m l0 ++ sub) as Htake.
  { unfold sub. rewrite take_take_drop. f_equal. lia. }
  assert (s_addresses st = pre ++ sub ++ post) as Hst.
  { rewrite Ha. f_equal. unfold sub, post.
    rewrite <- (take_drop (m' - m) (drop m l0)) at 1. f_equal.
    rewrite drop_drop. f_equal. lia. }
  destruct (process_batch_seq env sub pre post st batch_num Hst)
    as (st' & Hrun & Ha' & Hl' & Hs').
  rewrite Hpre, Hsub in Hrun.
  exists st'. split; [done|].
  assert (s_cache st ⊆ s_cache st') as Hgrow.
  { injection Hl' as -> _. apply geocode_all_grows. }
  assert (fill (s_cache st') <$> take m l0 = pre) as Hstable.
  { unfold pre. apply list_fmap_ext. intros i a Hia. apply fill_stable; [done|].
    injection Hl as -> _. apply geocode_all_cached.
    apply list_elem_of_fmap_2. by eapply list_elem_of_lookup_2. }
  split; [|by rewrite Hs'].
  unfold rows_done. fold l0. rewrite Hs'. simpl. rewrite Htake, !fmap_app, Hstable.
  split; [by rewrite Ha', <- (assoc_L (++))|].
  split.
  { rewrite Hl', geocode_all_app. by apply geocode_all_lookups. }
  rewrite successful_count_app. fold pre in Hs. rewrite Hp, Hs, Hsub.
  repeat split; try done; lia.
Qed.

End run_further.

Section run_master.
Import services viewmodel.

Lemma rows_done_length env st0 st m :
  rows_done env st0 st m → length (s_addresses st) = length (s_addresses st0).
Proof.
  intros (Ha & _). rewrite Ha, length_app, length_fmap, length_take, length_drop. lia.
Qed.

(** A run over a loaded table: every batch returns normally and the rows are
    done in order, whatever happens to the checkpoints. *)
Lemma process_all_addresses_run env config st :
  s_addresses st ≠ [] →
  (0 < batch_size config)%Z →
  total_batches (s_stats st)
  = ((Z.of_nat (length (s_addresses st)) + batch_size config - 1) / batch_size config)%Z →
  ∃ st',
    process_all_addresses env config st = (st', Ret true) ∧
    rows_done env st st' (length (s_addresses st)) ∧
    failed_geocodes (s_stats st')
    = (processed_addresses (s_stats st') - successful_geocodes (s_stats st'))%Z ∧
    current_batch (s_stats st') = total_batches (s_stats st).
Proof.
  intros Hne Hbs Htb.
  set (bs := batch_size config) in *.
  set (n := Z.of_nat (length (s_addresses st))) in *.
  set (tb := total_batches (s_stats st)) in *.
  assert (0 < n)%Z as Hn.
  { unfold n. destruct (s_addresses st); [done|simpl; lia]. }
  destruct (batches_cover n bs Hbs ltac:(lia)) as (Htb0 & Hlow & Hhigh).
  rewrite <- Htb in Htb0, Hlow, Hhigh.
  assert (1 ≤ tb)%Z as Htb1 by nia.
  set (I := λ (b : Z) (st' : State),
         rows_done env st st' (Z.to_nat (Z.min ((b - 1) * bs) n)) ∧
         ((1 < b)%Z →
          failed_geocodes (s_stats st')
          = (processed_addresses (s_stats st') - successful_geocodes (s_stats st'))%Z ∧
          current_batch (s_stats st') = (b - 1)%Z)).
  set (body := λ batch_num,
                      bind (gets s_addresses) (λ addresses,
                        let n := Z.of_nat (length addresses) in
                        let start_idx := ((batch_num - 1) * batch_size config)%Z in
                        let end_idx := Z.min (start_idx + batch_size config) n in
                        let batch_addresses := slice_refs n start_idx end_idx in
                        bind (process_batch env batch_addresses batch_num) (λ _,
                        bind (save_results env) (λ _,
                        bind (save_cache env) (λ _,
                        bind _print_progress (λ _,
                        bind (gets s_stats) (λ stats,
                          if (batch_num <? total_batches stats)%Z
                          then sleep 2 else ret tt)))))) : M unit).
  assert (∀ b st1, (1 ≤ b < tb + 1)%Z → I b st1 →
            ∃ st', body b st1 = (st', Ret tt) ∧ I (b + 1)%Z st') as Hbody.
  { intros b st1 Hb [Hdone _].
    assert (0 ≤ (b - 1) * bs)%Z as Hk0 by nia.
    assert ((b - 1) * bs < n)%Z as Hkn by nia.
    rewrite Z.min_l in Hdone by lia.
    pose proof (rows_done_length env st st1 _ Hdone) as Hlen.
    set (m := Z.to_nat ((b - 1) * bs)) in *.
    set (m' := Z.to_nat (Z.min ((b - 1) * bs + bs) n)).
    destruct (process_batch_next env st st1 m m' b Hdone) as (st2 & Hrun & Hdone2 & Hf2 & Hb2).
    { unfold m, m'. fold n. lia. }
    assert (silent (bind (save_results env) (λ _,
                    bind (save_cache env) (λ _,
                    bind _print_progress (λ _,
                    bind (gets s_stats) (λ stats,
                      if (b <? total_batches stats)%Z
                      then sleep 2 else ret tt)))))) as Hrest.
    { apply silent_bind; [apply silent_save_results|].
      apply silent_bind; [apply silent_save_cache|].
      apply silent_bind; [apply silent_print_progress|].
      apply silent_gets. intros stats.
      destruct (_ <? _)%Z; [apply silent_sleep|apply silent_ret]. }
    destruct (Hrest st2) as (st3 & Hrun3 & Hcore3).
    exists st3. split.
    - unfold body. unfold bind at 1, gets at 1. cbv zeta. rewrite Hlen. fold n bs.
      rewrite slice_refs_range by lia.
      replace (Z.to_nat (Z.min ((b - 1) * bs + bs) n - (b - 1) * bs)) with (m' - m)
        by (unfold m, m'; lia).
      fold m. rewrite (bind_run _ _ _ _ _ Hrun). exact Hrun3.
    - split.
      + replace (Z.to_nat (Z.min ((b + 1 - 1) * bs) n)) with m'
          by (unfold m'; f_equal; f_equal; lia).
        by apply (rows_done_core env st st2 st3).
      + intros _. apply core_fields in Hcore3 as (_ & _ & -> & _).
        split; [done|]. rewrite Hb2. lia. }
  destruct (for_each_range I body 1 (tb + 1) st) with (3 := Hbody)
    as (st' & Hloop & Hdone & Hlast); [lia| |].
  { split; [|lia]. replace (Z.to_nat (Z.min ((1 - 1) * bs) n)) with 0 by lia.
    apply rows_done_start. }
  destruct Hlast as [Hf Hb]; [lia|].
  exists st'. split; [|split; [|split]].
  - unfold process_all_addresses, bind at 1, gets at 1.
    destruct (s_addresses st) as [|a l] eqn:Hl; [done|].
    unfold try_except, bind at 1, gets at 1. fold tb.
    unfold body in Hloop. by rewrite (bind_run _ _ _ _ _ Hloop).
  - replace (Z.to_nat (Z.min ((tb + 1 - 1) * bs) n)) with (length (s_addresses st)) in Hdone
      by (unfold n in *; lia).
    done.
  - done.
  - rewrite Hb. lia.
Qed.

End run_master.

Section run_results.
Import services viewmodel.

(** The rows, cache and calls at the end of a run over a loaded table. *)
Lemma process_all_addresses_end env config st :
  s_addresses st ≠ [] →
  (0 < batch_size config)%Z →
  total_batches (s_stats st)
  = ((Z.of_nat (length (s_addresses st)) + batch_size config - 1) / batch_size config)%Z →
  ∃ st',
    process_all_addresses env config st = (st', Ret true) ∧
    s_addresses st' = fill (s_cache st') <$> s_addresses st ∧
    lookups st' = lookups (fst (geocode_all env (cleaned <$> s_addresses st) st)) ∧
    s_stats st' =
      (let processed := (processed_addresses (s_stats st)
                         + Z.of_nat (length (s_addresses st)))%Z in
       let successful := (successful_geocodes (s_stats st)
                          + successful_count (s_addresses st'))%Z in
       mkStats (total_addresses (s_stats st)) processed successful
               (processed - successful) (total_batches (s_stats st))
               (total_batches (s_stats st))).
Proof.
  intros Hne Hbs Htb.
  destruct (process_all_addresses_run env config st Hne Hbs Htb)
    as (st' & Hrun & (Ha & Hl & Ht & Hb & Hp & Hs) & Hf & Hc).
  rewrite take_ge, drop_ge, app_nil_r in Ha by done.
  rewrite take_ge in Hl, Hs by done.
  exists st'. split; [done|]. split; [done|]. split; [done|].
  rewrite <- Ha in Hs. simpl.
  destruct (s_stats st') as [t p s f b tb]; simpl in *. by subst.
Qed.

End run_results.









(** X23.  A whole run on a table that has the column 'Shipping Address' and
    at least one row, with a positive batch size, started with no cache
    file, with one that cannot be read, or with one that holds a saved
    cache: it returns [True]; the rows are those of the table, each with the
    outcome the cache ends with for its cleaned address; all rows are
    counted as processed, and the successful count is the number of rows
    that hold coordinates. *)
Theorem run_on_table env config file cells :
  csv_cells env = Ret (Some <$> cells) →
  cells ≠ [] →
  (0 < batch_size config)%Z →
  ∃ st',
    viewmodel.run env config (viewmodel.new_state file) = (st', Ret true) ∧
    s_addresses st' = fill (s_cache st') <$> (address_of_cell <$> cells) ∧
    s_stats st' =
      (let n := Z.of_nat (length cells) in
       let successful := viewmodel.successful_count (s_addresses st') in
       let batches := ((n + batch_size config - 1) / batch_size config)%Z in
       mkStats n n successful (n - successful) batches batches).
Proof.
  intros Hcsv Hcells Hbs.
  destruct (load_cache_frame env (viewmodel.new_state file)) as (Hr & Ha & Hs & He).
  destruct (services.load_cache env (viewmodel.new_state file)) as [st0 r0] eqn:Hload.
  simpl in Hr, Ha, Hs, He. subst r0.
  pose proof (load_addresses_run env config cells st0 Hcsv) as Hla.
  destruct (Z.eqb_spec (batch_size config) 0) as [|_]; [lia|].
  set (st1 := loaded cells _ st0) in Hla.
  destruct (process_all_addresses_end env config st1) as (st' & Hrun & Ha' & _ & Hs').
  { unfold st1; simpl. by destruct cells. }
  { done. }
  { unfold st1; simpl. by rewrite length_fmap. }
  exists st'. split; [|split].
  - unfold viewmodel.run, viewmodel.init.
    unfold bind at 1 2. rewrite Hload. unfold ret at 1.
    by rewrite (bind_run _ _ _ _ _ Hla).
  - by rewrite Ha'.
  - rewrite Hs'. unfold st1; simpl. rewrite Hs, length_fmap. simpl.
    f_equal; lia.
Qed.

Lemma run_on_table_witness :
  let env := mkEnv (λ _ _, NoMatch) (λ _, IoFailsLate)
                   (Ret [Some (PyStr (lit "A, city"))]) (λ _, []) in
  ∃ st',
    viewmodel.run env (mkConfig 1000) (viewmodel.new_state FileCorrupt) = (st', Ret true) ∧
    s_addresses st' = fill (s_cache st') <$> (address_of_cell <$> [PyStr (lit "A, city")]) ∧
    s_stats st' =
      (let n := Z.of_nat (length [PyStr (lit "A, city")]) in
       let successful := viewmodel.successful_count (s_addresses st') in
       let batches := ((n + 1000 - 1) / 1000)%Z in
       mkStats n n successful (n - successful) batches batches).
Proof.
  intros env.
  apply (run_on_table env (mkConfig 1000) FileCorrupt [PyStr (lit "A, city")]).
  - reflexivity.
  - discriminate.
  - reflexivity.
Defined.

Section edge_facts.
Import services viewmodel.

Lemma process_records_skip env i rest p s st :
  s_addresses st !! i = None →
  process_records env (i :: rest) p s st = process_records env rest p s st.
Proof. intros Ha. simpl. unfold bind at 1, gets at 1. by rewrite Ha. Qed.

Lemma process_records_quiet env batch :
  ∀ p s st,
    (0 ≤ p)%Z → (p + Z.of_nat (length batch) < 100)%Z →
    s_events (fst (process_records env batch p s st)) = s_events st ∧
    s_cache_file (fst (process_records env batch p s st)) = s_cache_file st.
Proof.
  induction batch as [|i batch IH]; intros p s st Hp Hlen; [done|].
  simpl in Hlen.
  destruct (s_addresses st !! i) as [a|] eqn:Ha.
  - destruct (geocode_address_run env (cleaned a) st) as (st1 & [lat lng] & Hg & _ & Hst1).
    destruct (geocode_address_frame env (cleaned a) st) as (_ & _ & Hf & He).
    rewrite <- Hst1 in Hf, He.
    rewrite (process_records_cons env i batch p s st a st1 lat lng
               (set_addresses (alter (with_coordinates lat lng) i) st1)); [|done..|].
    + destruct (IH (p + 1)%Z
                  (if is_geocoded (with_coordinates lat lng a) then s + 1 else s)%Z
                  (set_addresses (alter (with_coordinates lat lng) i) st1))
        as [-> ->]; [lia..|]. simpl. by rewrite Hf, He.
    + rewrite Z.mod_small by lia. by destruct (Z.eqb_spec (p + 1) 0); [lia|].
  - rewrite process_records_skip by done. apply IH; lia.
Qed.


End edge_facts.

Section batch_log.
Import services viewmodel.

Lemma process_records_app env l1 l2 :
  ∀ p s st,
    process_records env (l1 ++ l2) p s st =
    match process_records env l1 p s st with
    | (st1, Ret (p1, s1)) => process_records env l2 p1 s1 st1
    | (st1, Raise e) => (st1, Raise e)
    end.
Proof.
  induction l1 as [|i l1 IH]; intros p s st; [done|].
  rewrite <- app_comm_cons, !process_records_unfold.
  destruct (s_addresses st !! i) as [a|]; [|apply IH].
  destruct (geocode_address env (cleaned a) st) as [st1 [[lat lng]|e]]; [|done].
  destruct ((if ((p + 1) mod 100 =? 0)%Z then save_cache env else ret tt) _)
    as [st3 [[]|e]]; [|done].
  apply IH.
Qed.

Lemma batch_saves_nil env st : batch_saves env st [] = [].
Proof. done. Qed.

Lemma batch_saves_length env st keys :
  length (batch_saves env st keys) = length keys / 100.
Proof. unfold batch_saves. by rewrite length_fmap, length_seq. Qed.

Lemma batch_saves_snoc env st keys k :
  batch_saves env st (keys ++ [k]) =
  batch_saves env st keys ++
  (if ((Z.of_nat (length keys) + 1) mod 100 =? 0)%Z
   then [match io env (length (s_events st) + length keys / 100) with
         | IoOk => WroteCache (s_cache (fst (geocode_all env (keys ++ [k]) st)))
         | IoFailsEarly | IoFailsLate => IoFailed
         end]
   else []).
Proof.
  unfold batch_saves. rewrite length_app, Nat.add_1_r.
  set (n := length keys).
  assert (∀ j, j < n / 100 → take (100 * S j) (keys ++ [k]) = take (100 * S j) keys)
    as Hold.
  { intros j Hj. apply take_app_le. fold n.
    zify. Z.to_euclidean_division_equations. lia. }
  assert ((λ j, match io env (length (s_events st) + j) with
                | IoOk => WroteCache
                            (s_cache (fst (geocode_all env (take (100 * S j) (keys ++ [k])) st)))
                | IoFailsEarly | IoFailsLate => IoFailed
                end) <$> seq 0 (n / 100)
          = (λ j, match io env (length (s_events st) + j) with
                  | IoOk => WroteCache
                              (s_cache (fst (geocode_all env (take (100 * S j) keys) st)))
                  | IoFailsEarly | IoFailsLate => IoFailed
                  end) <$> seq 0 (n / 100)) as Hsame.
  { apply list_fmap_ext. intros i j Hij.
    apply list_elem_of_lookup_2, elem_of_seq in Hij. by rewrite Hold by lia. }
  destruct (Z.eqb_spec ((Z.of_nat n + 1) mod 100) 0) as [Hz|Hnz].
  - replace (S n / 100) with (S (n / 100))
      by (zify; Z.to_euclidean_division_equations; lia).
    rewrite seq_S, fmap_app, Hsame. f_equal. cbn [fmap list_fmap Nat.add].
    rewrite take_ge; [done|]. rewrite length_app, Nat.add_1_r. fold n.
    zify. Z.to_euclidean_division_equations. lia.
  - replace (S n / 100) with (n / 100)
      by (zify; Z.to_euclidean_division_equations; lia).
    by rewrite Hsame, app_nil_r.
Qed.

(** Over the rows at consecutive positions, counted from 0, the loop of
    [process_batch] saves the cache after every hundredth row and makes no
    other file operation. *)
Lemma process_records_saves env sub :
  ∀ pre post st s,
    s_addresses st = pre ++ sub ++ post →
    s_events (fst (process_records env (seq (length pre) (length sub)) 0 s st))
    = s_events st ++ batch_saves env st (cleaned <$> sub).
Proof.
  induction sub as [|a sub IH] using rev_ind; intros pre post st s Hst.
  { simpl. by rewrite batch_saves_nil, app_nil_r. }
  rewrite <- (assoc_L (++)) in Hst. simpl in Hst.
  specialize (IH pre (a :: post) st s Hst).
  destruct (process_records_seq env sub pre (a :: post) st 0 s Hst)
    as (st1 & Hrun & Ha1 & Hl1 & _).
  rewrite Hrun in IH. simpl in IH.
  rewrite length_app, seq_app, process_records_app, Hrun. simpl length. simpl seq.
  destruct (geocode_address_run env (cleaned a) st1) as (st2 & [lat lng] & Hg & _ & Hst2).
  destruct (geocode_address_frame env (cleaned a) st1) as (_ & _ & _ & He2).
  rewrite <- Hst2 in He2.
  assert (s_cache st2 = s_cache (fst (geocode_all env (cleaned <$> sub ++ [a]) st)))
    as Hc2.
  { rewrite fmap_app, geocode_all_app. simpl. rewrite geocode_all_cons, geocode_all_nil.
    simpl. rewrite Hst2.
    destruct (geocode_address_lookups env (cleaned a) st1
                (fst (geocode_all env (cleaned <$> sub) st)) Hl1) as [Hl _].
    by injection Hl. }
  set (st2' := set_addresses (alter (with_coordinates lat lng) (length pre + length sub)) st2).
  pose proof (save_cache_events env st2') as Hsave.
  destruct (silent_save_cache env st2') as (st3 & Hrun3 & _).
  rewrite Hrun3 in Hsave. simpl in Hsave.
  rewrite fmap_app. change (cleaned <$> [a]) with [cleaned a].
  rewrite batch_saves_snoc, length_fmap.
  rewrite (process_records_cons env _ [] _ _ st1 a st2 lat lng
             (if ((0 + Z.of_nat (length sub) + 1) mod 100 =? 0)%Z then st3 else st2')).
  - simpl. replace (0 + Z.of_nat (length sub) + 1)%Z with (Z.of_nat (length sub) + 1)%Z by lia.
    destruct (_ =? _)%Z.
    + rewrite Hsave. unfold st2'. simpl. rewrite He2, IH, <- (assoc_L (++)).
      rewrite length_app, batch_saves_length, length_fmap, Hc2, fmap_app. done.
    + unfold st2'. simpl. by rewrite He2, IH, app_nil_r.
  - rewrite Ha1, (assoc_L (++)).
    apply list_lookup_middle. by rewrite length_app, length_fmap.
  - done.
  - fold st2'. by destruct (_ =? _)%Z.
Qed.

End batch_log.

(** X24.  Inside a batch [process_batch] saves the cache after every
    hundredth row of the batch and makes no other file operation.  So a
    batch of fewer than a hundred rows leaves the files and the log as they
    were; and for a batch that is a slice of the rows, the entries added to
    the log are one cache save for each full hundred of rows, in order,
    each holding the cache as the lookups of the rows up to that hundredth
    have left it (or recording a failure of the file operation). *)
Theorem process_batch_saves_every_hundredth env batch_num st :
  (∀ batch, length batch < 100 →
     s_events (fst (viewmodel.process_batch env batch batch_num st)) = s_events st ∧
     s_cache_file (fst (viewmodel.process_batch env batch batch_num st)) = s_cache_file st) ∧
  (∀ pre sub post, s_addresses st = pre ++ sub ++ post →
     let st' := fst (viewmodel.process_batch env (seq (length pre) (length sub))
                       batch_num st) in
     s_events st' = s_events st ++ batch_saves env st (cleaned <$> sub) ∧
     length (batch_saves env st (cleaned <$> sub)) = length sub / 100).
Proof.
  split.
  - intros batch Hlen. unfold viewmodel.process_batch, bind.
    destruct (process_records_quiet env batch 0 0 st) as [He Hf]; [lia..|].
    destruct (viewmodel.process_records env batch 0 0 st) as [st1 [[p s]|e]];
      simpl in *; by rewrite He, Hf.
  - intros pre sub post Hst st'. split; [|by rewrite batch_saves_length, length_fmap].
    pose proof (process_records_saves env sub pre post st 0 Hst) as Hev.
    unfold st', viewmodel.process_batch, bind.
    destruct (viewmodel.process_records env _ 0 0 st) as [st1 [[p s]|e]]; by simpl in *.
Qed.

Lemma process_batch_saves_every_hundredth_witness :
  let env := mkEnv (λ _ _, NoMatch) (λ _, IoOk) (Ret []) (λ _, []) in
  let rows := replicate 100 (mkAddress (lit "A, city") (lit "A") None None) in
  let st := mkState ∅ rows (mkStats 100 0 0 0 0 1) FileAbsent [] [] in
  s_events (fst (viewmodel.process_batch env [0] 1 st)) = [] ∧
  s_events (fst (viewmodel.process_batch env (seq 0 100) 1 st))
  = [WroteCache {[ lit "A" := failed_result ]}].
Proof.
  intros env rows st. split.
  - apply (proj1 (process_batch_saves_every_hundredth env 1 st) [0]). simpl. lia.
  - destruct (proj2 (process_batch_saves_every_hundredth env 1 st) [] rows [])
      as [Hev _]; [apply (eq_sym (app_nil_r rows))|].
    etrans; [exact Hev|]. vm_compute. reflexivity.
Defined.



(** X26.  When the table cannot be read, or the batch size is 0, the run
    ends with [False] straight after [load_addresses]: no external call is
    made, nothing is written, and the cache is the one that was loaded. *)
Theorem run_stops_when_loading_fails env config file :
  (∃ e, csv_cells env = Raise e) ∨ batch_size config = 0%Z →
  let st0 := fst (viewmodel.init env (viewmodel.new_state file)) in
  let st' := fst (viewmodel.run env config (viewmodel.new_state file)) in
  snd (viewmodel.run env config (viewmodel.new_state file)) = Ret false ∧
  s_ext_calls st' = [] ∧ s_events st' = s_events st0 ∧ s_cache st' = s_cache st0.
Proof.
  intros Hfail.
  assert (∃ st0 st',
            viewmodel.init env (viewmodel.new_state file) = (st0, Ret tt) ∧
            viewmodel.run env config (viewmodel.new_state file) = (st', Ret false) ∧
            s_ext_calls st' = [] ∧ s_events st' = s_events st0 ∧
            s_cache st' = s_cache st0) as (st0 & st' & -> & -> & H); [|done].
  unfold viewmodel.run, viewmodel.init, bind, ret.
  destruct (load_cache_frame env (viewmodel.new_state file)) as (Hr & _ & _ & He).
  destruct (services.load_cache env (viewmodel.new_state file)) as [st0 r0].
  cbn [fst snd] in *. subst r0.
  destruct (load_addresses_frame env config st0) as (Hc' & He' & Hev' & _ & Hzero).
  assert (snd (viewmodel.load_addresses env config st0) = Ret false) as Hfalse.
  { destruct Hfail as [[e Hcsv]|Hbs]; [|by apply Hzero].
    unfold viewmodel.load_addresses, services.load_csv. by rewrite Hcsv. }
  destruct (viewmodel.load_addresses env config st0) as [st1 r1].
  cbn [fst snd] in *. subst r1.
  exists st0, st1. split; [done|]. split; [done|]. by rewrite He', He.
Qed.

Lemma run_stops_when_loading_fails_witness :
  let env := mkEnv (λ _ _, Located 1%Q 2%Q) (λ _, IoOk)
                   (Ret [Some (PyStr (lit "A, city"))]) (λ _, []) in
  snd (viewmodel.run env (mkConfig 0) (viewmodel.new_state FileAbsent)) = Ret false.
Proof.
  intros env.
  apply (run_stops_when_loading_fails env (mkConfig 0) FileAbsent).
  right. reflexivity.
Defined.
